(** * HlsPlayer: the lifecycle of an hls.js instance bound to a <video> element

    A shallow embedding of the [HlsPlayer] React component.  The two
    collaborators of the component, the hls.js engine and the browser's video
    element, are opaque: every command the component sends them, every line it
    writes to the console and every caller callback it invokes is recorded, in
    order, in a log.  The component's own state (its three refs, the closures
    React keeps for it) is explicit. *)

From stdpp Require Import gmap strings list fin_maps.

(** ** Values *)

(** Attribute and configuration values. *)
Inductive jsval :=
  | JUndefined
  | JNull
  | JBool (b : bool)
  | JNum (z : Z)
  | JStr (s : string).

#[global] Instance jsval_eq_dec : EqDecision jsval.
Proof. solve_decision. Defined.

(** Object identities: a video element, an hls.js instance, a caller's
    function, a caller's ref object, a caller's configuration object. *)
Abbreviation Video := nat (only parsing).
Abbreviation Hls := nat (only parsing).
Abbreviation Callback := nat (only parsing).
Abbreviation RefId := nat (only parsing).
Abbreviation ObjId := nat (only parsing).
Abbreviation Payload := nat (only parsing).

(** [interface HlsPlayerRef { video: HTMLVideoElement | null; hls: Hls | null }] *)
Record HlsPlayerRef := { video : option Video; hls : option Hls }.

#[global] Instance HlsPlayerRef_eq_dec : EqDecision HlsPlayerRef.
Proof. solve_decision. Defined.

(** [Hls.ErrorTypes] of hls.js. *)
Inductive ErrorTypes :=
  | NETWORK_ERROR
  | MEDIA_ERROR
  | KEY_SYSTEM_ERROR
  | MUX_ERROR
  | OTHER_ERROR.

#[global] Instance ErrorTypes_eq_dec : EqDecision ErrorTypes.
Proof. solve_decision. Defined.

(** The payload of an [Hls.Events.ERROR] event, as far as the component
    reads it ([data.fatal], [data.type]); [details] stands for the rest. *)
Record ErrorData := { fatal : bool; type : ErrorTypes; details : string }.

#[global] Instance ErrorData_eq_dec : EqDecision ErrorData.
Proof. solve_decision. Defined.

(** The four members of [Hls.Events] the component subscribes to. *)
Inductive Events :=
  | MEDIA_ATTACHED
  | MANIFEST_PARSED
  | ERROR
  | LEVEL_SWITCHED.

#[global] Instance Events_eq_dec : EqDecision Events.
Proof. solve_decision. Defined.

(** An event as the engine delivers it to a listener: [(event, data)]. *)
Inductive Emitted :=
  | EvMediaAttached
  | EvManifestParsed (data : Payload)
  | EvError (event : string) (data : ErrorData)
  | EvLevelSwitched (level : Z).

Definition kind (ev : Emitted) : Events :=
  match ev with
  | EvMediaAttached => MEDIA_ATTACHED
  | EvManifestParsed _ => MANIFEST_PARSED
  | EvError _ _ => ERROR
  | EvLevelSwitched _ => LEVEL_SWITCHED
  end.

(** A promise as returned by [video.play()]. *)
Inductive Promise :=
  | Fulfilled
  | Rejected (reason : string).

(** ** The log of observable effects *)

Inductive effect :=
  | HlsNew (h : Hls) (config : gmap string jsval)   (* new Hls(config) *)
  | HlsOn (h : Hls) (ev : Events)                   (* hls.on(ev, ...) *)
  | HlsAttachMedia (h : Hls) (v : Video)
  | HlsLoadSource (h : Hls) (url : string)
  | HlsStartLoad (h : Hls)
  | HlsRecoverMediaError (h : Hls)
  | HlsDestroy (h : Hls)
  | VideoPlay (v : Video)
  | VideoSetSrc (v : Video) (url : string)
  | ConsoleError (msg : string) (arg : option string)
  | UnhandledRejection (reason : string)
  | CallOnHlsInit (f : Callback) (h : Hls)
  | CallOnHlsReady (f : Callback) (h : Hls) (v : Video)
  | CallOnHlsError (f : Callback) (event : string) (data : ErrorData)
  | CallOnHlsMediaAttached (f : Callback)
  | CallOnHlsManifestParsed (f : Callback) (data : Payload)
  | CallOnHlsLevelSwitched (f : Callback) (level : Z).

#[global] Instance effect_eq_dec : EqDecision effect.
Proof. solve_decision. Defined.

(** ** Props *)

(** [HlsPlayerProps] after the destructuring of the component's parameter:
    the ten named props, and [props], the rest.  An object-valued prop
    carries its identity, which is what React's dependency comparison sees. *)
Record HlsPlayerProps := {
  src : string;
  hlsConfig : option (ObjId * gmap string jsval);
  playerRef : option RefId;
  onHlsInit : option Callback;
  onHlsReady : option Callback;
  onHlsError : option Callback;
  onHlsMediaAttached : option Callback;
  onHlsManifestParsed : option Callback;
  onHlsLevelSwitched : option Callback;
  autoPlay : option bool;
  props : gmap string jsval
}.

(** What the browser answers to the component's capability queries. *)
Record Env := {
  isSupported : bool;                 (* Hls.isSupported() *)
  canPlayType : string -> string      (* video.canPlayType(mime) *)
}.

(** JavaScript truthiness of the two tested values. *)
Definition truthy_flag (b : option bool) : bool := default false b.

Definition truthy_string (s : string) : bool :=
  match s with EmptyString => false | _ => true end.

(** ** Component state *)

Inductive Phase := Fresh | Mounted | Unmounted.

#[global] Instance Phase_eq_dec : EqDecision Phase.
Proof. solve_decision. Defined.

Record Component := {
  phase : Phase;
  videoRef : option Video;                      (* videoRef.current *)
  hlsRef : option Hls;                          (* hlsRef.current *)
  internalPlayerRef : HlsPlayerRef;             (* internalPlayerRef.current *)
  refs : gmap RefId HlsPlayerRef;               (* .current of the callers' ref objects *)
  effect1 : option HlsPlayerProps;              (* closure of the last run of the first effect *)
  effect2 : option (option Video * option RefId); (* dependencies of the second effect at the last render *)
  handlers : list (Hls * Events * HlsPlayerProps); (* listeners registered with hls.on, with their closure *)
  microtasks : list effect;                     (* reactions of settled promises, not yet run *)
  nextHls : Hls;                                (* identity of the next instance to be allocated *)
  log : list effect
}.

Definition set_phase (x : Phase) (s : Component) : Component :=
  {| phase := x; videoRef := videoRef s; hlsRef := hlsRef s;
     internalPlayerRef := internalPlayerRef s; refs := refs s;
     effect1 := effect1 s; effect2 := effect2 s; handlers := handlers s;
     microtasks := microtasks s; nextHls := nextHls s; log := log s |}.

Definition set_videoRef (x : option Video) (s : Component) : Component :=
  {| phase := phase s; videoRef := x; hlsRef := hlsRef s;
     internalPlayerRef := internalPlayerRef s; refs := refs s;
     effect1 := effect1 s; effect2 := effect2 s; handlers := handlers s;
     microtasks := microtasks s; nextHls := nextHls s; log := log s |}.

Definition set_hlsRef (x : option Hls) (s : Component) : Component :=
  {| phase := phase s; videoRef := videoRef s; hlsRef := x;
     internalPlayerRef := internalPlayerRef s; refs := refs s;
     effect1 := effect1 s; effect2 := effect2 s; handlers := handlers s;
     microtasks := microtasks s; nextHls := nextHls s; log := log s |}.

Definition set_internalPlayerRef (x : HlsPlayerRef) (s : Component) : Component :=
  {| phase := phase s; videoRef := videoRef s; hlsRef := hlsRef s;
     internalPlayerRef := x; refs := refs s;
     effect1 := effect1 s; effect2 := effect2 s; handlers := handlers s;
     microtasks := microtasks s; nextHls := nextHls s; log := log s |}.

Definition set_refs (x : gmap RefId HlsPlayerRef) (s : Component) : Component :=
  {| phase := phase s; videoRef := videoRef s; hlsRef := hlsRef s;
     internalPlayerRef := internalPlayerRef s; refs := x;
     effect1 := effect1 s; effect2 := effect2 s; handlers := handlers s;
     microtasks := microtasks s; nextHls := nextHls s; log := log s |}.

Definition set_effect1 (x : option HlsPlayerProps) (s : Component) : Component :=
  {| phase := phase s; videoRef := videoRef s; hlsRef := hlsRef s;
     internalPlayerRef := internalPlayerRef s; refs := refs s;
     effect1 := x; effect2 := effect2 s; handlers := handlers s;
     microtasks := microtasks s; nextHls := nextHls s; log := log s |}.

Definition set_effect2 (x : option (option Video * option RefId)) (s : Component) : Component :=
  {| phase := phase s; videoRef := videoRef s; hlsRef := hlsRef s;
     internalPlayerRef := internalPlayerRef s; refs := refs s;
     effect1 := effect1 s; effect2 := x; handlers := handlers s;
     microtasks := microtasks s; nextHls := nextHls s; log := log s |}.

Definition set_handlers (x : list (Hls * Events * HlsPlayerProps)) (s : Component) : Component :=
  {| phase := phase s; videoRef := videoRef s; hlsRef := hlsRef s;
     internalPlayerRef := internalPlayerRef s; refs := refs s;
     effect1 := effect1 s; effect2 := effect2 s; handlers := x;
     microtasks := microtasks s; nextHls := nextHls s; log := log s |}.

Definition set_microtasks (x : list effect) (s : Component) : Component :=
  {| phase := phase s; videoRef := videoRef s; hlsRef := hlsRef s;
     internalPlayerRef := internalPlayerRef s; refs := refs s;
     effect1 := effect1 s; effect2 := effect2 s; handlers := handlers s;
     microtasks := x; nextHls := nextHls s; log := log s |}.

Definition set_nextHls (x : Hls) (s : Component) : Component :=
  {| phase := phase s; videoRef := videoRef s; hlsRef := hlsRef s;
     internalPlayerRef := internalPlayerRef s; refs := refs s;
     effect1 := effect1 s; effect2 := effect2 s; handlers := handlers s;
     microtasks := microtasks s; nextHls := x; log := log s |}.

Definition set_log (x : list effect) (s : Component) : Component :=
  {| phase := phase s; videoRef := videoRef s; hlsRef := hlsRef s;
     internalPlayerRef := internalPlayerRef s; refs := refs s;
     effect1 := effect1 s; effect2 := effect2 s; handlers := handlers s;
     microtasks := microtasks s; nextHls := nextHls s; log := x |}.

(** ** Commands

    The component's code is a sequence of statements over this state; a
    statement is a state transformer, and [c1 >>> c2] is [c1; c2]. *)

Definition Cmd := Component -> Component.

Definition skip : Cmd := fun s => s.

Definition seq (c1 c2 : Cmd) : Cmd := fun s => c2 (c1 s).

Infix ">>>" := seq (at level 61, left associativity).

Definition emit (e : effect) : Cmd := fun s => set_log (log s ++ [e]) s.

(** [f?.(args)]: the call happens when the caller supplied [f]. *)
Definition call (f : option Callback) (k : Callback -> effect) : Cmd :=
  match f with
  | Some g => emit (k g)
  | None => skip
  end.

Definition absent : HlsPlayerRef := {| video := None; hls := None |}.

(** The object the component publishes to: [playerRef] when the caller gave
    one, [internalPlayerRef] otherwise. *)
Definition write_playerRef (p : HlsPlayerProps) (r : HlsPlayerRef) : Cmd :=
  match playerRef p with
  | Some ref => fun s => set_refs (<[ref := r]> (refs s)) s
  | None => set_internalPlayerRef r
  end.

Definition read_playerRef (p : HlsPlayerProps) (s : Component) : HlsPlayerRef :=
  match playerRef p with
  | Some ref => default absent (refs s !! ref)
  | None => internalPlayerRef s
  end.

(** [{ enableWorker: true, lowLatencyMode: false, ...hlsConfig }], where
    [hlsConfig] defaults to [{}].  Union of maps prefers its left operand. *)
Definition defaultConfig : gmap string jsval :=
  {[ "enableWorker" := JBool true; "lowLatencyMode" := JBool false ]}.

Definition newHlsConfig (p : HlsPlayerProps) : gmap string jsval :=
  default ∅ (snd <$> hlsConfig p) ∪ defaultConfig.

(** [hls.on(ev, handler)]: the handler closes over the props of the render
    that registered it. *)
Definition on (h : Hls) (ev : Events) (p : HlsPlayerProps) : Cmd :=
  emit (HlsOn h ev) >>> (fun s => set_handlers (handlers s ++ [(h, ev, p)]) s).

(** [promise.catch(onRejected)] as an expression statement: when the promise
    is rejected the reaction is queued as a microtask, and the promise that
    [catch] returns is fulfilled. *)
Definition catch (pr : Promise) (onRejected : string -> effect) : Promise * list effect :=
  match pr with
  | Fulfilled => (Fulfilled, [])
  | Rejected reason => (Fulfilled, [onRejected reason])
  end.

(** A promise that is dropped: a rejection nobody handles surfaces. *)
Definition discard (pr : Promise) : list effect :=
  match pr with
  | Fulfilled => []
  | Rejected reason => [UnhandledRejection reason]
  end.

Definition queue (jobs : list effect) : Cmd :=
  fun s => set_microtasks (microtasks s ++ jobs) s.

(** Run the queued microtasks, after the current handler has returned. *)
Definition drain : Cmd :=
  fun s => set_microtasks [] (set_log (log s ++ microtasks s) s).

(** ** The first effect *)

Definition destroyHls : Cmd := fun s =>
  match hlsRef s with
  | Some h => (emit (HlsDestroy h) >>> set_hlsRef None) s
  | None => s
  end.

Definition onMediaAttached (p : HlsPlayerProps) : Cmd :=
  call (onHlsMediaAttached p) CallOnHlsMediaAttached.

Definition onManifestParsed (p : HlsPlayerProps) (play : Promise) (data : Payload) : Cmd :=
  (if truthy_flag (autoPlay p) then
     fun s =>
       match videoRef s with
       | Some v =>
           let '(pr, jobs) :=
             catch play (fun error => ConsoleError "Autoplay failed:" (Some error)) in
           (emit (VideoPlay v) >>> queue (jobs ++ discard pr)) s
       | None => s
       end
   else skip) >>>
  call (onHlsManifestParsed p) (fun f => CallOnHlsManifestParsed f data).

Definition onError (p : HlsPlayerProps) (h : Hls) (event : string) (data : ErrorData) : Cmd :=
  (if fatal data then
     match type data with
     | NETWORK_ERROR => emit (HlsStartLoad h)
     | MEDIA_ERROR => emit (HlsRecoverMediaError h)
     | _ => destroyHls
     end
   else skip) >>>
  call (onHlsError p) (fun f => CallOnHlsError f event data).

Definition onLevelSwitched (p : HlsPlayerProps) (level : Z) : Cmd :=
  call (onHlsLevelSwitched p) (fun f => CallOnHlsLevelSwitched f level).

(** [hls = new Hls({...})]: allocates the instance [nextHls s]. *)
Definition newHls (p : HlsPlayerProps) : Cmd := fun s =>
  set_nextHls (S (nextHls s)) (emit (HlsNew (nextHls s) (newHlsConfig p)) s).

Definition initHls (p : HlsPlayerProps) (E : Env) : Cmd := fun s =>
  match videoRef s with
  | Some v =>
      if isSupported E then
        let h := nextHls s in
        (newHls p >>>
         set_hlsRef (Some h) >>>
         write_playerRef p {| video := Some v; hls := Some h |} >>>
         on h MEDIA_ATTACHED p >>>
         on h MANIFEST_PARSED p >>>
         on h ERROR p >>>
         on h LEVEL_SWITCHED p >>>
         emit (HlsAttachMedia h v) >>>
         emit (HlsLoadSource h (src p)) >>>
         call (onHlsInit p) (fun f => CallOnHlsInit f h) >>>
         call (onHlsReady p) (fun f => CallOnHlsReady f h v)) s
      else if truthy_string (canPlayType E "application/vnd.apple.mpegurl") then
        emit (VideoSetSrc v (src p)) s
      else
        emit (ConsoleError "HLS is not supported in this browser" None) s
  | None => s
  end.

(** The function the first effect returns. *)
Definition cleanup (p : HlsPlayerProps) : Cmd :=
  destroyHls >>> write_playerRef p absent.

(** ** The second effect *)

Definition updateVideoRef (p : HlsPlayerProps) : Cmd := fun s =>
  match videoRef s with
  | Some v =>
      write_playerRef p {| video := Some v; hls := hls (read_playerRef p s) |} s
  | None => s
  end.

(** ** Rendering *)

Record VideoElement := {
  ref_attached : bool;                (* ref={videoRef} *)
  attributes : gmap string jsval
}.

(** [<video ref={videoRef} controls={true} {...props} />]: a later attribute
    replaces an earlier one of the same name. *)
Definition render (p : HlsPlayerProps) : VideoElement :=
  {| ref_attached := true;
     attributes := props p ∪ {[ "controls" := JBool true ]} |}.

(** ** React's scheduling of the two effects *)

(** The dependency list of the first effect, as [Object.is] sees it. *)
Definition deps1 (p : HlsPlayerProps) :=
  (src p, autoPlay p, fst <$> hlsConfig p,
   (onHlsInit p, onHlsReady p, onHlsError p),
   (onHlsMediaAttached p, onHlsManifestParsed p, onHlsLevelSwitched p),
   playerRef p).

(** An omitted [hlsConfig] is a new [{}] at every render, equal to none. *)
Definition deps1_changed (old new : HlsPlayerProps) : bool :=
  match hlsConfig new with
  | None => true
  | Some _ => bool_decide (deps1 old ≠ deps1 new)
  end.

(** First render and commit: the element [v] is created and attached to
    [videoRef], then both effects run.  The dependencies of the second
    effect were read during the render, when [videoRef.current] was null. *)
Definition mount (p : HlsPlayerProps) (v : Video) (E : Env) : Cmd :=
  set_phase Mounted >>>
  set_videoRef (Some v) >>>
  initHls p E >>> set_effect1 (Some p) >>>
  updateVideoRef p >>> set_effect2 (Some (None, playerRef p)).

(** Does a re-render with props [p] re-run the first effect? *)
Definition rebinds (p : HlsPlayerProps) (s : Component) : bool :=
  match effect1 s with
  | Some old => deps1_changed old p
  | None => true
  end.

(** The cleanup React holds for the first effect. *)
Definition run_cleanup : Cmd := fun s =>
  match effect1 s with
  | Some old => cleanup old s
  | None => s
  end.

(** A later render and commit: cleanups of the effects whose dependencies
    changed, then those effects, in order. *)
Definition rerender (p : HlsPlayerProps) (E : Env) : Cmd := fun s =>
  let d2 := Some (videoRef s, playerRef p) in
  ((if rebinds p s then run_cleanup >>> initHls p E >>> set_effect1 (Some p) else skip) >>>
   (if bool_decide (effect2 s ≠ d2) then updateVideoRef p else skip) >>>
   set_effect2 d2) s.

(** Unmount: the ref is detached, then the pending cleanup runs. *)
Definition unmount : Cmd :=
  set_phase Unmounted >>> set_videoRef None >>> run_cleanup >>> set_effect1 None.

(** The listener of instance [h] for events of kind [k]. *)
Definition listener (h : Hls) (k : Events) (s : Component) : option HlsPlayerProps :=
  snd <$> find (fun x => bool_decide (x.1 = (h, k))) (handlers s).

(** The engine delivers [ev] to the listener that instance [h] holds for
    it; [play] is how the promise of [video.play()] settles, should the
    listener call it.  Microtasks run once the listener has returned. *)
Definition listen (p : HlsPlayerProps) (h : Hls) (ev : Emitted) (play : Promise) : Cmd :=
  match ev with
  | EvMediaAttached => onMediaAttached p
  | EvManifestParsed data => onManifestParsed p play data
  | EvError event data => onError p h event data
  | EvLevelSwitched level => onLevelSwitched p level
  end.

Definition handle (p : HlsPlayerProps) (h : Hls) (ev : Emitted) (play : Promise) : Cmd :=
  listen p h ev play >>> drain.

Inductive Action :=
  | Mount (p : HlsPlayerProps) (v : Video) (E : Env)
  | Rerender (p : HlsPlayerProps) (E : Env)
  | Unmount
  | Emit (h : Hls) (ev : Emitted) (play : Promise).

(** One step of a session.  React mounts a fresh component once, re-renders
    and unmounts a mounted one.  An instance may emit an event whenever it
    has a listener for it: nothing is assumed of the engine, not even that
    a destroyed instance stays silent. *)
Definition step (a : Action) (s : Component) : option Component :=
  match a with
  | Mount p v E =>
      if bool_decide (phase s = Fresh) then Some (mount p v E s) else None
  | Rerender p E =>
      if bool_decide (phase s = Mounted) then Some (rerender p E s) else None
  | Unmount =>
      if bool_decide (phase s = Mounted) then Some (unmount s) else None
  | Emit h ev play =>
      match listener h (kind ev) s with
      | Some p => Some (handle p h ev play s)
      | None => None
      end
  end.

Fixpoint run (acts : list Action) (s : Component) : option Component :=
  match acts with
  | [] => Some s
  | a :: acts =>
      match step a s with
      | Some s' => run acts s'
      | None => None
      end
  end.

(** A component instance before its first render; [r] holds the [.current]
    of the ref objects the caller created. *)
Definition initial (r : gmap RefId HlsPlayerRef) : Component :=
  {| phase := Fresh; videoRef := None; hlsRef := None;
     internalPlayerRef := absent; refs := r;
     effect1 := None; effect2 := None; handlers := [];
     microtasks := []; nextHls := 0; log := [] |}.

Inductive reachable : Component -> Prop :=
  | reachable_initial r : reachable (initial r)
  | reachable_step a s s' : reachable s -> step a s = Some s' -> reachable s'.

(** A re-render that re-runs the first effect, or the unmount. *)
Definition trigger (a : Action) (s : Component) : bool :=
  match a with
  | Rerender p _ => rebinds p s
  | Unmount => true
  | _ => false
  end.

(** What a step added to the log. *)
Definition emitted (s s' : Component) : list effect :=
  drop (length (log s)) (log s').

(** ** Observing the log *)

(** The instances constructed and not yet destroyed after a log. *)
Definition observe (l : list Hls) (e : effect) : list Hls :=
  match e with
  | HlsNew h _ => l ++ [h]
  | HlsDestroy h => filter (fun x => x ≠ h) l
  | _ => l
  end.

Definition live (tr : list effect) : list Hls := foldl observe [] tr.

(** A monitor of the discipline "construct only when no instance is live,
    destroy only the live one": [None] once it is broken. *)
Definition monitor_step (st : option (option Hls)) (e : effect) : option (option Hls) :=
  match st with
  | None => None
  | Some cur =>
      match e with
      | HlsNew h _ => match cur with None => Some (Some h) | Some _ => None end
      | HlsDestroy h => if bool_decide (cur = Some h) then Some None else None
      | _ => Some cur
      end
  end.

Definition monitor (tr : list effect) : option (option Hls) :=
  foldl monitor_step (Some None) tr.

(** The instance an effect constructs or destroys. *)
Definition lifetime (e : effect) : option Hls :=
  match e with
  | HlsNew h _ | HlsDestroy h => Some h
  | _ => None
  end.

(** ** A sample session *)

Definition sample_props : HlsPlayerProps :=
  {| src := "a.m3u8"; hlsConfig := Some (0, ∅); playerRef := None;
     onHlsInit := Some 1; onHlsReady := Some 2; onHlsError := Some 3;
     onHlsMediaAttached := Some 4; onHlsManifestParsed := Some 5;
     onHlsLevelSwitched := Some 6; autoPlay := Some true; props := ∅ |}.

(** The same player with another source, another configuration. *)
Definition with_src (url : string) (p : HlsPlayerProps) : HlsPlayerProps :=
  {| src := url; hlsConfig := hlsConfig p; playerRef := playerRef p;
     onHlsInit := onHlsInit p; onHlsReady := onHlsReady p; onHlsError := onHlsError p;
     onHlsMediaAttached := onHlsMediaAttached p;
     onHlsManifestParsed := onHlsManifestParsed p;
     onHlsLevelSwitched := onHlsLevelSwitched p; autoPlay := autoPlay p;
     props := props p |}.

Definition with_hlsConfig (c : option (ObjId * gmap string jsval)) (p : HlsPlayerProps)
  : HlsPlayerProps :=
  {| src := src p; hlsConfig := c; playerRef := playerRef p;
     onHlsInit := onHlsInit p; onHlsReady := onHlsReady p; onHlsError := onHlsError p;
     onHlsMediaAttached := onHlsMediaAttached p;
     onHlsManifestParsed := onHlsManifestParsed p;
     onHlsLevelSwitched := onHlsLevelSwitched p; autoPlay := autoPlay p;
     props := props p |}.

(** Three browsers: with Media Source Extensions, with native HLS only,
    with neither. *)
Definition mse : Env := {| isSupported := true; canPlayType := fun _ => "" |}.
Definition safari : Env := {| isSupported := false; canPlayType := fun _ => "maybe" |}.
Definition legacy : Env := {| isSupported := false; canPlayType := fun _ => "" |}.

(** The sample player after its mount on a browser with Media Source
    Extensions: instance 0 is live, bound to element 7. *)
Definition mounted_sample : Component := mount sample_props 7 mse (initial ∅).

(** Two fatal errors, one of each kind of recovery. *)
Definition network_failure : ErrorData :=
  {| fatal := true; type := NETWORK_ERROR; details := "manifestLoadError" |}.

Definition key_failure : ErrorData :=
  {| fatal := true; type := KEY_SYSTEM_ERROR; details := "keySystemNoAccess" |}.

(** A component in the commit of its first render, element attached,
    before its effects. *)
Definition mounting (v : Video) : Component :=
  set_videoRef (Some v) (set_phase Mounted (initial ∅)).

(** The same player with other pass-through attributes. *)
Definition with_props (a : gmap string jsval) (p : HlsPlayerProps) : HlsPlayerProps :=
  {| src := src p; hlsConfig := hlsConfig p; playerRef := playerRef p;
     onHlsInit := onHlsInit p; onHlsReady := onHlsReady p; onHlsError := onHlsError p;
     onHlsMediaAttached := onHlsMediaAttached p;
     onHlsManifestParsed := onHlsManifestParsed p;
     onHlsLevelSwitched := onHlsLevelSwitched p; autoPlay := autoPlay p;
     props := a |}.

(** A player whose caller omits [hlsConfig], after its mount. *)
Definition bare_props : HlsPlayerProps := with_hlsConfig None sample_props.

Definition mounted_bare : Component := mount bare_props 7 mse (initial ∅).

(** A non-fatal error. *)
Definition stall : ErrorData :=
  {| fatal := false; type := MEDIA_ERROR; details := "bufferStalledError" |}.

(** The sample player on a browser without any HLS support, after its
    mount and one change of source. *)
Definition legacy_second : Component :=
  rerender (with_src "b.m3u8" sample_props) legacy
    (mount sample_props 7 legacy (initial ∅)).

(** ** Vocabulary of the properties *)

(** The calls [f?.(args)] adds to the log. *)
Definition calls (f : option Callback) (k : Callback -> effect) : list effect :=
  match f with
  | Some g => [k g]
  | None => []
  end.

(** An effect that neither constructs nor destroys an instance. *)
Definition neutral (e : effect) : Prop := lifetime e = None.

(** A command is quiet when it keeps [hlsRef] and the allocator, and adds
    only neutral effects to the log. *)
Definition quiet (c : Cmd) : Prop :=
  forall s, hlsRef (c s) = hlsRef s /\ nextHls (c s) = nextHls s /\
            exists x, log (c s) = log s ++ x /\ Forall neutral x.

(** A command is static when it keeps what React holds for the component
    and the microtask queue. *)
Definition static (c : Cmd) : Prop :=
  forall s, phase (c s) = phase s /\ effect1 (c s) = effect1 s /\
            microtasks (c s) = microtasks s.

(** Every instance an effect constructs or destroys was allocated before [n]. *)
Definition bounded (n : Hls) (e : effect) : Prop :=
  forall h, lifetime e = Some h -> h < n.

(** The engine discipline, as far as single commands keep it: the monitor
    accepts the log and holds the instance stored in [hlsRef]; the log
    mentions allocated instances only; the stored instance is allocated and
    not destroyed. *)
Record Core (s : Component) : Prop := {
  core_monitor : monitor (log s) = Some (hlsRef s);
  core_bounded : Forall (bounded (nextHls s)) (log s);
  core_fresh : forall h, hlsRef s = Some h -> h < nextHls s /\ HlsDestroy h ∉ log s
}.

(** The invariant of the reachable states: between two steps no microtask
    is pending, and a component that has run no effect stores no instance. *)
Record Inv (s : Component) : Prop := {
  inv_core : Core s;
  inv_micro : microtasks s = [];
  inv_phase : phase s = Fresh -> hlsRef s = None;
  inv_effect1 : effect1 s = None -> hlsRef s = None
}.

(** What a listener does to the invariant: it may destroy the stored
    instance, and never stores one. *)
Definition listen_ok (c : Cmd) (s : Component) : Prop :=
  Core (c s) /\
  Forall neutral (microtasks (c s)) /\
  phase (c s) = phase s /\
  effect1 (c s) = effect1 s /\
  (hlsRef (c s) = hlsRef s \/ hlsRef (c s) = None).

(** An effect other than the destruction of an instance. *)
Definition constructive (e : effect) : Prop := forall h, e ≠ HlsDestroy h.

(** The recovery table of the specification, for an error of instance [h]:
    nothing when the error is not fatal; resume loading for a fatal network
    error; media-error recovery for a fatal media error; destruction of the
    instance for any other fatal error. *)
Definition recovery_policy (h : Hls) (data : ErrorData) : list effect :=
  if fatal data then
    if decide (type data = NETWORK_ERROR) then [HlsStartLoad h]
    else if decide (type data = MEDIA_ERROR) then [HlsRecoverMediaError h]
    else [HlsDestroy h]
  else [].

(** Every listener belongs to an instance that has been allocated. *)
Definition registered (s : Component) : Prop :=
  Forall (fun x : Hls * Events * HlsPlayerProps => x.1.1 < nextHls s) (handlers s).

(** What holds of the refs in every reachable state: a mounted component
    has its element and a pending cleanup, listeners belong to allocated
    instances, an unmounted component stores no instance, and the two
    effects last saw the same [playerRef]. *)
Record Shape (s : Component) : Prop := {
  shape_video : phase s = Mounted -> is_Some (videoRef s);
  shape_bound : phase s = Mounted -> is_Some (effect1 s);
  shape_registered : registered s;
  shape_unmounted : phase s = Unmounted -> hlsRef s = None;
  shape_same_ref : forall old d,
    effect1 s = Some old -> effect2 s = Some d -> d.2 = playerRef old
}.

(** Does the caller pass a [playerRef] at this render? *)
Definition passes_playerRef (a : Action) : bool :=
  match a with
  | Mount p _ _ | Rerender p _ => bool_decide (is_Some (playerRef p))
  | _ => true
  end.

(** Does the caller omit [playerRef] at this render? *)
Definition omits_playerRef (a : Action) : bool :=
  match a with
  | Mount p _ _ | Rerender p _ => bool_decide (playerRef p = None)
  | _ => true
  end.

(** The two objects the component can publish to, seen from one side:
    with [ext], the props select the caller's [playerRef] and the object
    left alone is the internal one; without, the other way round. *)
Definition target_ok (ext : bool) (p : HlsPlayerProps) : Prop :=
  if ext then is_Some (playerRef p) else playerRef p = None.

Definition untouched (ext : bool) (s s' : Component) : Prop :=
  if ext then internalPlayerRef s' = internalPlayerRef s else refs s' = refs s.

Definition selects (ext : bool) (a : Action) : bool :=
  if ext then passes_playerRef a else omits_playerRef a.

(** ** Tactics *)

Ltac frame :=
  unfold seq, call, emit, skip, queue, drain, catch, discard, write_playerRef;
  repeat case_match; simpl; repeat split; try done.

Ltac target H :=
  match goal with ext : bool |- _ =>
    destruct ext; simpl in *; [destruct H as [? H]|];
    unfold cleanup, destroyHls, updateVideoRef, read_playerRef, on, newHls,
      seq, call, emit, skip, write_playerRef;
    rewrite H; repeat case_match; simpl; try done
  end.

Ltac constructive_list :=
  repeat first [ apply Forall_nil; done
               | apply Forall_cons; split; [by intros ? ?|]
               | apply Forall_app; split ].

(** * Properties *)

(** The log of a rebind of the sample player. *)
Example rebind_log :
  log <$> run [Mount sample_props 7 mse; Rerender (with_src "b.m3u8" sample_props) mse] (initial ∅)
  = Some [HlsNew 0 defaultConfig; HlsOn 0 MEDIA_ATTACHED; HlsOn 0 MANIFEST_PARSED;
          HlsOn 0 ERROR; HlsOn 0 LEVEL_SWITCHED; HlsAttachMedia 0 7;
          HlsLoadSource 0 "a.m3u8"; CallOnHlsInit 1 0; CallOnHlsReady 2 0 7;
          HlsDestroy 0;
          HlsNew 1 defaultConfig; HlsOn 1 MEDIA_ATTACHED; HlsOn 1 MANIFEST_PARSED;
          HlsOn 1 ERROR; HlsOn 1 LEVEL_SWITCHED; HlsAttachMedia 1 7;
          HlsLoadSource 1 "b.m3u8"; CallOnHlsInit 1 1; CallOnHlsReady 2 1 7].
Proof. vm_compute. reflexivity. Qed.

(** ** Commands and the log *)

Lemma emitted_app s s' x : log s' = log s ++ x -> emitted s s' = x.
Proof. intros H. unfold emitted. rewrite H. apply drop_app_length. Qed.

Lemma log_call f k s : log (call f k s) = log s ++ calls f k.
Proof. destruct f; simpl; [reflexivity | by rewrite app_nil_r]. Qed.

Lemma call_frame f k s :
  hlsRef (call f k s) = hlsRef s /\ videoRef (call f k s) = videoRef s /\
  internalPlayerRef (call f k s) = internalPlayerRef s /\ refs (call f k s) = refs s /\
  nextHls (call f k s) = nextHls s /\ microtasks (call f k s) = microtasks s /\
  handlers (call f k s) = handlers s.
Proof. by destruct f. Qed.

Lemma read_write_playerRef p r s : read_playerRef p (write_playerRef p r s) = r.
Proof.
  unfold read_playerRef, write_playerRef.
  destruct (playerRef p) as [ref|]; simpl; [|reflexivity].
  by rewrite lookup_insert_eq.
Qed.

Lemma write_playerRef_frame p r s :
  hlsRef (write_playerRef p r s) = hlsRef s /\ videoRef (write_playerRef p r s) = videoRef s /\
  nextHls (write_playerRef p r s) = nextHls s /\ log (write_playerRef p r s) = log s /\
  microtasks (write_playerRef p r s) = microtasks s /\
  handlers (write_playerRef p r s) = handlers s.
Proof. unfold write_playerRef. by destruct (playerRef p). Qed.

Lemma log_destroyHls s :
  log (destroyHls s) = log s ++ match hlsRef s with Some h => [HlsDestroy h] | None => [] end.
Proof. unfold destroyHls. destruct (hlsRef s); simpl; [reflexivity | by rewrite app_nil_r]. Qed.

Lemma hlsRef_destroyHls s : hlsRef (destroyHls s) = None.
Proof. unfold destroyHls. by destruct (hlsRef s) eqn:E. Qed.

(** The log of the branch of [initHls] that constructs an instance. *)
Lemma log_initHls_software p E s v :
  videoRef s = Some v -> isSupported E = true ->
  log (initHls p E s) =
    log s ++
    [HlsNew (nextHls s) (newHlsConfig p);
     HlsOn (nextHls s) MEDIA_ATTACHED; HlsOn (nextHls s) MANIFEST_PARSED;
     HlsOn (nextHls s) ERROR; HlsOn (nextHls s) LEVEL_SWITCHED;
     HlsAttachMedia (nextHls s) v; HlsLoadSource (nextHls s) (src p)] ++
    calls (onHlsInit p) (fun f => CallOnHlsInit f (nextHls s)) ++
    calls (onHlsReady p) (fun f => CallOnHlsReady f (nextHls s) v).
Proof.
  intros Hv HE. unfold initHls. rewrite Hv, HE. unfold seq.
  rewrite !log_call. unfold on, seq, newHls. simpl.
  destruct (write_playerRef_frame p {| video := Some v; hls := Some (nextHls s) |}
    (set_hlsRef (Some (nextHls s))
       (set_nextHls (S (nextHls s)) (emit (HlsNew (nextHls s) (newHlsConfig p)) s))))
    as (_ & _ & _ & -> & _).
  simpl. by rewrite <- !app_assoc.
Qed.

(** ** Teardown *)

(** C10. [destroyHls] is total and idempotent: it always leaves
    [hlsRef.current] null, running it a second time changes nothing, and
    when no instance is stored it changes nothing at all (the log included,
    so no call reaches the engine). *)
Theorem destroyHls_idempotent s :
  hlsRef (destroyHls s) = None /\
  destroyHls (destroyHls s) = destroyHls s /\
  (hlsRef s = None -> destroyHls s = s) /\
  destroyHls (set_hlsRef None s) = set_hlsRef None s.
Proof.
  split; [apply hlsRef_destroyHls|].
  split; [|split; [|reflexivity]].
  - unfold destroyHls at 1. by rewrite hlsRef_destroyHls.
  - intros H. unfold destroyHls. by rewrite H.
Qed.

(** C4. Whatever [initHls] did (constructed an instance, set the source on
    the element, or only logged), the cleanup of the first effect destroys
    the stored instance if there is one, exactly once, clears [hlsRef], and
    leaves [{ video: null, hls: null }] in the object the effect publishes
    to: the caller's [playerRef] when given, the internal ref otherwise. *)
Theorem cleanup_resets p E s :
  let s1 := initHls p E s in
  let s2 := cleanup p s1 in
  read_playerRef p s2 = absent /\
  hlsRef s2 = None /\
  emitted s1 s2 = match hlsRef s1 with Some h => [HlsDestroy h] | None => [] end /\
  match playerRef p with
  | Some ref => refs s2 !! ref = Some absent /\ internalPlayerRef s2 = internalPlayerRef s1
  | None => internalPlayerRef s2 = absent /\ refs s2 = refs s1
  end.
Proof.
  intros s1 s2. subst s2. unfold cleanup, seq.
  split; [apply read_write_playerRef|].
  destruct (write_playerRef_frame p absent (destroyHls s1)) as (Hh & _ & _ & Hl & _).
  split; [by rewrite Hh, hlsRef_destroyHls|].
  split; [apply emitted_app; by rewrite Hl, log_destroyHls|].
  unfold write_playerRef. destruct (playerRef p) as [ref|]; simpl.
  - split; [apply lookup_insert_eq|]. unfold destroyHls. by destruct (hlsRef s1).
  - split; [reflexivity|]. unfold destroyHls. by destruct (hlsRef s1).
Qed.

(** ** Construction *)

(** C6. The configuration given to [new Hls] is the caller's [hlsConfig]
    over the two defaults: a key of the caller's mapping has the caller's
    value, any other key has its default, and with an empty (or omitted)
    mapping the engine receives exactly
    [{ enableWorker: true, lowLatencyMode: false }]. *)
Theorem newHls_config p E s v :
  let caller := default ∅ (snd <$> hlsConfig p) in
  videoRef s = Some v -> isSupported E = true ->
  exists config rest,
    emitted s (initHls p E s) = HlsNew (nextHls s) config :: rest /\
    (forall h c, HlsNew h c ∉ rest) /\
    (forall k, config !! k =
       match caller !! k with Some x => Some x | None => defaultConfig !! k end) /\
    (caller = ∅ ->
       config = {[ "enableWorker" := JBool true; "lowLatencyMode" := JBool false ]}).
Proof.
  intros caller Hv HE. eexists (newHlsConfig p), _.
  split; [apply emitted_app; rewrite (log_initHls_software _ _ _ _ Hv HE); reflexivity|].
  split; [|split].
  - intros h c Hin. simpl in Hin.
    repeat (apply elem_of_cons in Hin as [Hin | Hin]; [discriminate|]).
    apply elem_of_app in Hin as [Hin | Hin].
    + destruct (onHlsInit p); simpl in Hin; [|by apply elem_of_nil in Hin].
      apply elem_of_cons in Hin as [Hin | Hin]; [discriminate | by apply elem_of_nil in Hin].
    + destruct (onHlsReady p); simpl in Hin; [|by apply elem_of_nil in Hin].
      apply elem_of_cons in Hin as [Hin | Hin]; [discriminate | by apply elem_of_nil in Hin].
  - intros k. unfold newHlsConfig. fold caller. rewrite lookup_union.
    destruct (caller !! k), (defaultConfig !! k); reflexivity.
  - intros Hc. unfold newHlsConfig. fold caller. rewrite Hc.
    by rewrite (left_id_L ∅ (∪)).
Qed.

Lemma newHls_config_witness :
  exists config rest,
    emitted (set_videoRef (Some 7) (initial ∅))
      (initHls sample_props mse (set_videoRef (Some 7) (initial ∅)))
    = HlsNew 0 config :: rest /\
    config = {[ "enableWorker" := JBool true; "lowLatencyMode" := JBool false ]}.
Proof.
  destruct (newHls_config sample_props mse (set_videoRef (Some 7) (initial ∅)) 7
              eq_refl eq_refl) as (config & rest & H1 & _ & _ & H4).
  exists config, rest. split; [exact H1 | apply H4; reflexivity].
Defined.

(** C7. In the branch that constructs an instance, [initHls] logs, after
    the construction and the four subscriptions, [attachMedia], then
    [loadSource], then the call of [onHlsInit] with the instance, then the
    call of [onHlsReady] with the instance and the element (each call when the
    caller supplied the callback), and nothing in between or after: the two
    calls depend on no event and on nothing else in the state. *)
Theorem initHls_ready p E s v :
  let h := nextHls s in
  videoRef s = Some v -> isSupported E = true ->
  emitted s (initHls p E s) =
    [HlsNew h (newHlsConfig p);
     HlsOn h MEDIA_ATTACHED; HlsOn h MANIFEST_PARSED; HlsOn h ERROR; HlsOn h LEVEL_SWITCHED] ++
    [HlsAttachMedia h v; HlsLoadSource h (src p)] ++
    calls (onHlsInit p) (fun f => CallOnHlsInit f h) ++
    calls (onHlsReady p) (fun f => CallOnHlsReady f h v) /\
  forall f g, onHlsInit p = Some f -> onHlsReady p = Some g ->
    exists pre, emitted s (initHls p E s) =
      pre ++ [HlsAttachMedia h v; HlsLoadSource h (src p); CallOnHlsInit f h; CallOnHlsReady g h v].
Proof.
  intros h Hv HE.
  pose proof (log_initHls_software p E s v Hv HE) as Hlog. fold h in Hlog.
  split; [by apply emitted_app|].
  intros f g Hf Hg. rewrite Hf, Hg in Hlog. eexists.
  apply emitted_app. rewrite Hlog. simpl. f_equal.
  by instantiate (1 := [_; _; _; _; _]).
Qed.

Lemma initHls_ready_witness :
  emitted (set_videoRef (Some 7) (initial ∅))
    (initHls sample_props mse (set_videoRef (Some 7) (initial ∅))) =
  [HlsNew 0 defaultConfig;
   HlsOn 0 MEDIA_ATTACHED; HlsOn 0 MANIFEST_PARSED; HlsOn 0 ERROR; HlsOn 0 LEVEL_SWITCHED;
   HlsAttachMedia 0 7; HlsLoadSource 0 "a.m3u8"; CallOnHlsInit 1 0; CallOnHlsReady 2 0 7].
Proof.
  exact (proj1 (initHls_ready sample_props mse (set_videoRef (Some 7) (initial ∅)) 7
                  eq_refl eq_refl)).
Defined.

(** ** Commands that leave the engine alone *)

Create HintDb cmd discriminated.

Lemma quiet_skip : quiet skip.
Proof. intros s. repeat split. exists []. by rewrite app_nil_r. Qed.

Lemma quiet_seq c1 c2 : quiet c1 -> quiet c2 -> quiet (c1 >>> c2).
Proof.
  intros H1 H2 s. unfold seq.
  destruct (H1 s) as (Ha & Hb & x & Hx & Fx).
  destruct (H2 (c1 s)) as (Ha' & Hb' & y & Hy & Fy).
  rewrite Ha', Hb', Hy, Hx, Ha, Hb. repeat split.
  exists (x ++ y). rewrite app_assoc. split; [reflexivity | by apply Forall_app].
Qed.

Lemma quiet_if (b : bool) c1 c2 : quiet c1 -> quiet c2 -> quiet (if b then c1 else c2).
Proof. by destruct b. Qed.

Lemma quiet_emit e : neutral e -> quiet (emit e).
Proof. intros He s. repeat split. exists [e]. split; [reflexivity | by constructor]. Qed.

Lemma quiet_call f k : (forall g, neutral (k g)) -> quiet (call f k).
Proof. intros Hk. destruct f; simpl; [by apply quiet_emit | apply quiet_skip]. Qed.

Lemma quiet_state (f : Component -> Component) :
  (forall s, hlsRef (f s) = hlsRef s /\ nextHls (f s) = nextHls s /\ log (f s) = log s) ->
  quiet f.
Proof.
  intros H s. destruct (H s) as (-> & -> & ->). repeat split.
  exists []. by rewrite app_nil_r.
Qed.

Lemma quiet_write_playerRef p r : quiet (write_playerRef p r).
Proof. apply quiet_state. intros s. unfold write_playerRef. by destruct (playerRef p). Qed.

Lemma quiet_on h ev p : quiet (on h ev p).
Proof.
  apply quiet_seq; [by apply quiet_emit | by apply quiet_state].
Qed.

Lemma quiet_updateVideoRef p : quiet (updateVideoRef p).
Proof.
  intros s. unfold updateVideoRef. destruct (videoRef s).
  - apply quiet_write_playerRef.
  - apply quiet_skip.
Qed.

Lemma quiet_queue jobs : quiet (queue jobs).
Proof. by apply quiet_state. Qed.

Lemma quiet_set_phase x : quiet (set_phase x).
Proof. by apply quiet_state. Qed.

Lemma quiet_set_videoRef x : quiet (set_videoRef x).
Proof. by apply quiet_state. Qed.

Lemma quiet_set_effect1 x : quiet (set_effect1 x).
Proof. by apply quiet_state. Qed.

Lemma quiet_set_effect2 x : quiet (set_effect2 x).
Proof. by apply quiet_state. Qed.

#[local] Hint Resolve quiet_skip quiet_seq quiet_if quiet_emit quiet_call
  quiet_write_playerRef quiet_on quiet_updateVideoRef quiet_queue
  quiet_set_phase quiet_set_videoRef quiet_set_effect1 quiet_set_effect2 : cmd.
#[local] Hint Extern 1 (neutral _) => reflexivity : cmd.
#[local] Hint Extern 1 (forall _, neutral _) => (intros ?; reflexivity) : cmd.

Lemma static_skip : static skip.
Proof. by intros s. Qed.

Lemma static_seq c1 c2 : static c1 -> static c2 -> static (c1 >>> c2).
Proof.
  intros H1 H2 s. unfold seq.
  destruct (H1 s) as (<- & <- & <-). apply H2.
Qed.

Lemma static_if (b : bool) c1 c2 : static c1 -> static c2 -> static (if b then c1 else c2).
Proof. by destruct b. Qed.

Lemma static_emit e : static (emit e).
Proof. by intros s. Qed.

Lemma static_call f k : static (call f k).
Proof. destruct f; [apply static_emit | apply static_skip]. Qed.

Lemma static_write_playerRef p r : static (write_playerRef p r).
Proof. intros s. unfold write_playerRef. by destruct (playerRef p). Qed.

Lemma static_on h ev p : static (on h ev p).
Proof. apply static_seq; [apply static_emit | by intros s]. Qed.

Lemma static_set_hlsRef x : static (set_hlsRef x).
Proof. by intros s. Qed.

Lemma static_set_videoRef x : static (set_videoRef x).
Proof. by intros s. Qed.

Lemma static_set_effect2 x : static (set_effect2 x).
Proof. by intros s. Qed.

Lemma static_newHls p : static (newHls p).
Proof. by intros s. Qed.

Lemma static_destroyHls : static destroyHls.
Proof. intros s. unfold destroyHls. by destruct (hlsRef s). Qed.

Lemma static_updateVideoRef p : static (updateVideoRef p).
Proof.
  intros s. unfold updateVideoRef. destruct (videoRef s); [|done].
  apply static_write_playerRef.
Qed.

#[local] Hint Resolve static_skip static_seq static_if static_emit static_call
  static_write_playerRef static_on static_set_hlsRef static_set_videoRef
  static_set_effect2 static_newHls static_destroyHls static_updateVideoRef : cmd.

Lemma static_initHls p E : static (initHls p E).
Proof.
  intros s. unfold initHls. destruct (videoRef s) as [v|]; [|done].
  destruct (isSupported E).
  - assert (static (newHls p >>> set_hlsRef (Some (nextHls s)) >>>
      write_playerRef p {| video := Some v; hls := Some (nextHls s) |} >>>
      on (nextHls s) MEDIA_ATTACHED p >>> on (nextHls s) MANIFEST_PARSED p >>>
      on (nextHls s) ERROR p >>> on (nextHls s) LEVEL_SWITCHED p >>>
      emit (HlsAttachMedia (nextHls s) v) >>> emit (HlsLoadSource (nextHls s) (src p)) >>>
      call (onHlsInit p) (fun f => CallOnHlsInit f (nextHls s)) >>>
      call (onHlsReady p) (fun f => CallOnHlsReady f (nextHls s) v)))
      as H by auto 20 with cmd.
    apply H.
  - by destruct (truthy_string _).
Qed.

Lemma static_cleanup p : static (cleanup p).
Proof. unfold cleanup. auto with cmd. Qed.

Lemma static_run_cleanup : static run_cleanup.
Proof.
  intros s. unfold run_cleanup. destruct (effect1 s) eqn:E1; [|done].
  rewrite <- E1. apply static_cleanup.
Qed.

#[local] Hint Resolve static_initHls static_cleanup static_run_cleanup : cmd.

(** ** The monitor and the live instances *)

Lemma monitor_snoc tr e : monitor (tr ++ [e]) = monitor_step (monitor tr) e.
Proof. apply foldl_snoc. Qed.

Lemma monitor_broken k : foldl monitor_step None k = None.
Proof. induction k as [|e k IH]; [reflexivity | exact IH]. Qed.

Lemma monitor_prefix tr k o :
  monitor (tr ++ k) = Some o -> exists o', monitor tr = Some o'.
Proof.
  unfold monitor. rewrite foldl_app.
  destruct (foldl monitor_step (Some None) tr) as [o'|]; [eauto|].
  by rewrite monitor_broken.
Qed.

Lemma monitor_neutral tr x o :
  monitor tr = Some o -> Forall neutral x -> monitor (tr ++ x) = Some o.
Proof.
  intros Hm Hx. revert tr Hm. induction Hx as [|e x He _ IH]; intros tr Hm.
  - by rewrite app_nil_r.
  - replace (tr ++ e :: x) with ((tr ++ [e]) ++ x) by (by rewrite <- app_assoc).
    apply IH.
    rewrite monitor_snoc, Hm. by destruct e.
Qed.

(** When the monitor accepts a log, the live instances after it are the one
    the monitor holds, if any. *)
Lemma monitor_live tr o : monitor tr = Some o -> live tr = option_list o.
Proof.
  revert o. induction tr as [|e tr IH] using rev_ind; intros o Hm.
  - by injection Hm as <-.
  - rewrite monitor_snoc in Hm. unfold live. rewrite foldl_snoc. fold (live tr).
    destruct (monitor tr) as [cur|]; [|discriminate].
    rewrite (IH cur eq_refl).
    destruct e; simpl in Hm; try (by injection Hm as <-).
    + destruct cur; [discriminate|]. by injection Hm as <-.
    + case_bool_decide as Hc; [|discriminate]. injection Hm as <-. subst cur.
      simpl. rewrite filter_cons, decide_False; [reflexivity|]. intros Hne. by apply Hne.
Qed.

Lemma monitor_at_most_one tr o :
  monitor tr = Some o -> forall pre, pre `prefix_of` tr -> length (live pre) <= 1.
Proof.
  intros Hm pre [k ->]. apply monitor_prefix in Hm as [o' Hm].
  rewrite (monitor_live _ _ Hm). destruct o'; simpl; lia.
Qed.

(** ** The invariant of the engine discipline *)

Lemma core_extend s s' x :
  Core s -> hlsRef s' = hlsRef s -> nextHls s' = nextHls s ->
  log s' = log s ++ x -> Forall neutral x -> Core s'.
Proof.
  intros [Hm Hb Hf] Hh Hn Hl Hx. split; rewrite ?Hh, ?Hn, ?Hl.
  - by apply monitor_neutral.
  - apply Forall_app. split; [done|].
    eapply Forall_impl; [exact Hx|]. intros e He h' Hh'. unfold neutral in He. congruence.
  - intros h' Hh'. destruct (Hf h' Hh') as [Hlt Hnin]. split; [done|].
    intros [Hin|Hin]%elem_of_app; [done|].
    rewrite Forall_forall in Hx. specialize (Hx _ Hin). inversion Hx.
Qed.

Lemma quiet_core c s : quiet c -> Core s -> Core (c s).
Proof.
  intros Hq Hc. destruct (Hq s) as (Hh & Hn & x & Hl & Hx).
  by eapply core_extend.
Qed.

Lemma destroyHls_core s : Core s -> Core (destroyHls s).
Proof.
  intros Hc. unfold destroyHls. destruct (hlsRef s) as [h|] eqn:Hh; [|exact Hc].
  destruct Hc as [Hm Hb Hf].
  destruct (Hf h Hh) as [Hlt Hnin].
  split; simpl.
  - rewrite monitor_snoc, Hm, Hh. simpl. by rewrite bool_decide_eq_true_2.
  - apply Forall_app. split; [done|]. constructor; [|constructor].
    intros h' [= <-]. done.
  - intros h' [=].
Qed.

Lemma construct_core p s :
  Core s -> hlsRef s = None ->
  Core (set_hlsRef (Some (nextHls s)) (newHls p s)).
Proof.
  intros [Hm Hb Hf] Hh. split; simpl.
  - rewrite monitor_snoc, Hm, Hh. reflexivity.
  - apply Forall_app. split.
    + eapply Forall_impl; [exact Hb|]. intros e He h' Hh'. specialize (He h' Hh'). lia.
    + constructor; [|constructor]. intros h' [= <-]. lia.
  - intros h' [= <-]. split; [lia|].
    intros [Hin|Hin]%elem_of_app.
    + rewrite Forall_forall in Hb. specialize (Hb _ Hin (nextHls s) eq_refl). lia.
    + apply elem_of_cons in Hin as [Hin|Hin]; [discriminate | by apply elem_of_nil in Hin].
Qed.

Lemma initHls_core p E s : Core s -> hlsRef s = None -> Core (initHls p E s).
Proof.
  intros Hc Hh. unfold initHls. destruct (videoRef s) as [v|]; [|done].
  destruct (isSupported E).
  - unfold seq. repeat (apply quiet_core; [solve [auto with cmd]|]).
    by apply construct_core.
  - destruct (truthy_string _); apply quiet_core; auto with cmd.
Qed.

Lemma cleanup_core p s : Core s -> Core (cleanup p s) /\ hlsRef (cleanup p s) = None.
Proof.
  intros Hc. unfold cleanup, seq. split.
  - apply quiet_core; [auto with cmd|]. by apply destroyHls_core.
  - destruct (write_playerRef_frame p absent (destroyHls s)) as (-> & _).
    apply hlsRef_destroyHls.
Qed.

Lemma initial_inv r : Inv (initial r).
Proof.
  split; done.
Qed.

Lemma run_cleanup_core s :
  Core s -> (effect1 s = None -> hlsRef s = None) ->
  Core (run_cleanup s) /\ hlsRef (run_cleanup s) = None.
Proof.
  intros Hc He. unfold run_cleanup. destruct (effect1 s) as [old|].
  - by apply cleanup_core.
  - split; [done | by apply He].
Qed.

Lemma mount_inv p v E s : Inv s -> phase s = Fresh -> Inv (mount p v E s).
Proof.
  intros [Hc Hm Hp He] Hfresh. unfold mount, seq.
  set (s0 := set_videoRef (Some v) (set_phase Mounted s)).
  assert (Core (initHls p E s0)) as Hc1.
  { apply initHls_core; [|by apply Hp]. subst s0.
    by do 2 (apply quiet_core; [solve [auto with cmd]|]). }
  destruct (static_initHls p E s0) as (Hp1 & He1 & Hm1).
  destruct (static_updateVideoRef p (set_effect1 (Some p) (initHls p E s0))) as (Hp2 & He2 & Hm2).
  split.
  - by repeat (apply quiet_core; [solve [auto with cmd]|]).
  - simpl. rewrite Hm2. simpl. rewrite Hm1. exact Hm.
  - simpl. rewrite Hp2. simpl. rewrite Hp1. discriminate.
  - simpl. rewrite He2. discriminate.
Qed.

(** What a re-render keeps. *)
Lemma rerender_shape p E s :
  phase (rerender p E s) = phase s /\
  microtasks (rerender p E s) = microtasks s /\
  if rebinds p s then effect1 (rerender p E s) = Some p
  else effect1 (rerender p E s) = effect1 s /\ hlsRef (rerender p E s) = hlsRef s.
Proof.
  unfold rerender, seq. simpl.
  set (c2 := if bool_decide _ then updateVideoRef p else skip).
  assert (static c2) as Hs2 by (subst c2; auto with cmd).
  assert (quiet c2) as Hq2 by (subst c2; auto with cmd).
  destruct (rebinds p s).
  - unfold seq.
    destruct (Hs2 (set_effect1 (Some p) (initHls p E (run_cleanup s)))) as (-> & -> & ->).
    simpl.
    destruct (static_initHls p E (run_cleanup s)) as (-> & _ & ->).
    destruct (static_run_cleanup s) as (-> & _ & ->). done.
  - unfold skip. destruct (Hs2 s) as (-> & -> & ->).
    destruct (Hq2 s) as (-> & _). done.
Qed.

Lemma rerender_inv p E s : Inv s -> phase s = Mounted -> Inv (rerender p E s).
Proof.
  intros [Hc Hm Hp He] Hmounted.
  destruct (rerender_shape p E s) as (Hp' & Hm' & Hrest).
  split; [| congruence | congruence |].
  - unfold rerender, seq.
    repeat (apply quiet_core; [solve [auto with cmd]|]).
    destruct (rebinds p s); [|done]. unfold seq.
    apply quiet_core; [auto with cmd|].
    by apply initHls_core; apply run_cleanup_core.
  - intros He'. destruct (rebinds p s).
    + congruence.
    + destruct Hrest as [He1 ->]. apply He. congruence.
Qed.

Lemma unmount_inv s : Inv s -> Inv (unmount s).
Proof.
  intros [Hc Hm Hp He]. unfold unmount, seq.
  set (s0 := set_videoRef None (set_phase Unmounted s)).
  assert (Core s0) as Hc0.
  { subst s0. by do 2 (apply quiet_core; [solve [auto with cmd]|]). }
  destruct (run_cleanup_core s0 Hc0 He) as [Hc1 Hh1].
  destruct (static_run_cleanup s0) as (Hp1 & _ & Hm1).
  split; simpl.
  - by apply quiet_core; [auto with cmd|].
  - rewrite Hm1. exact Hm.
  - intros _. exact Hh1.
  - intros _. exact Hh1.
Qed.

Lemma ok_quiet_static c s :
  quiet c -> static c -> Core s -> microtasks s = [] -> listen_ok c s.
Proof.
  intros Hq Hs Hc Hm. split; [by apply quiet_core|].
  destruct (Hs s) as (-> & -> & ->). destruct (Hq s) as (-> & _).
  rewrite Hm. auto.
Qed.

Lemma ok_then_call c f k s :
  (forall g, neutral (k g)) -> listen_ok c s -> listen_ok (c >>> call f k) s.
Proof.
  intros Hk (Hc & Hm & Hp & He & Hh). unfold seq.
  split; [apply quiet_core; auto with cmd|].
  destruct (static_call f k (c s)) as (-> & -> & ->).
  destruct (call_frame f k (c s)) as (-> & _). auto.
Qed.

Lemma ok_destroyHls s : Core s -> microtasks s = [] -> listen_ok destroyHls s.
Proof.
  intros Hc Hm. split; [by apply destroyHls_core|].
  destruct (static_destroyHls s) as (-> & -> & ->). rewrite Hm.
  repeat split; auto. right. apply hlsRef_destroyHls.
Qed.

Lemma ok_play (play : Promise) s :
  Core s -> microtasks s = [] ->
  listen_ok (fun s =>
    match videoRef s with
    | Some v =>
        let '(pr, jobs) :=
          catch play (fun error => ConsoleError "Autoplay failed:" (Some error)) in
        (emit (VideoPlay v) >>> queue (jobs ++ discard pr)) s
    | None => s
    end) s.
Proof.
  intros Hc Hm. unfold listen_ok. destruct (videoRef s) as [v|].
  - destruct play; simpl; rewrite Hm; simpl;
      (split; [apply (core_extend s _ [VideoPlay v]); try done; by repeat constructor|]);
      (split; [by repeat constructor | auto]).
  - rewrite Hm. split; [exact Hc | repeat split; auto].
Qed.

Lemma listen_facts p h ev play s :
  Core s -> microtasks s = [] -> listen_ok (listen p h ev play) s.
Proof.
  intros Hc Hm. destruct ev as [|data|event data|level]; simpl.
  - apply ok_quiet_static; unfold onMediaAttached; auto with cmd.
  - unfold onManifestParsed. apply ok_then_call; [auto with cmd|].
    destruct (truthy_flag (autoPlay p)).
    + by apply ok_play.
    + apply ok_quiet_static; auto with cmd.
  - unfold onError. apply ok_then_call; [auto with cmd|].
    destruct (fatal data); [destruct (type data)|];
      first [ by apply ok_destroyHls | apply ok_quiet_static; auto with cmd ].
  - apply ok_quiet_static; unfold onLevelSwitched; auto with cmd.
Qed.

Lemma handle_inv p h ev play s : Inv s -> Inv (handle p h ev play s).
Proof.
  intros [Hc Hm Hp He]. unfold handle, seq, drain.
  destruct (listen_facts p h ev play s Hc Hm) as (Hc' & Hm' & Hp' & He' & Hh').
  split; simpl; [| done | |].
  - by eapply (core_extend (listen p h ev play s)).
  - intros Hf. rewrite Hp' in Hf. specialize (Hp Hf).
    destruct Hh' as [-> | ->]; done.
  - intros Hn. rewrite He' in Hn. specialize (He Hn).
    destruct Hh' as [-> | ->]; done.
Qed.

Lemma step_inv a s s' : Inv s -> step a s = Some s' -> Inv s'.
Proof.
  intros Hi. destruct a as [p v E|p E| |h ev play]; simpl.
  - case_bool_decide; [|done]. intros [= <-]. by apply mount_inv.
  - case_bool_decide; [|done]. intros [= <-]. by apply rerender_inv.
  - case_bool_decide; [|done]. intros [= <-]. by apply unmount_inv.
  - destruct (listener h (kind ev) s); [|done]. intros [= <-]. by apply handle_inv.
Qed.

Lemma reachable_inv s : reachable s -> Inv s.
Proof.
  induction 1 as [r | a s s' _ IH Hstep]; [apply initial_inv | by eapply step_inv].
Qed.

(** In a reachable state the live instances are the one in [hlsRef]. *)
Lemma reachable_live s : reachable s -> live (log s) = option_list (hlsRef s).
Proof.
  intros Hr. apply monitor_live. apply (core_monitor _ (inv_core _ (reachable_inv _ Hr))).
Qed.

Lemma reachable_live_hlsRef s h :
  reachable s -> h ∈ live (log s) -> hlsRef s = Some h.
Proof.
  intros Hr Hin. rewrite (reachable_live _ Hr) in Hin.
  destruct (hlsRef s); simpl in Hin.
  - apply elem_of_cons in Hin as [-> | Hin]; [done | by apply elem_of_nil in Hin].
  - by apply elem_of_nil in Hin.
Qed.

(** ** The log of a rebind *)

Lemma neutral_constructive x : Forall neutral x -> Forall constructive x.
Proof.
  intros Hx. eapply Forall_impl; [exact Hx|]. intros e He h ->. discriminate He.
Qed.

Lemma calls_constructive f k :
  (forall g, constructive (k g)) -> Forall constructive (calls f k).
Proof. intros Hk. destruct f; simpl; by repeat constructor. Qed.

Lemma initHls_constructive p E s :
  exists x, log (initHls p E s) = log s ++ x /\ Forall constructive x.
Proof.
  destruct (videoRef s) as [v|] eqn:Hv.
  - destruct (isSupported E) eqn:HE.
    + eexists. split; [by apply log_initHls_software|].
      repeat first [ apply Forall_cons; split; [by intros ?|] | apply Forall_app; split ];
        apply calls_constructive; by intros ? ?.
    + unfold initHls. rewrite Hv, HE.
      destruct (truthy_string _); eexists; (split; [reflexivity|]); by repeat constructor.
  - unfold initHls. rewrite Hv. exists []. by rewrite app_nil_r.
Qed.

Lemma log_cleanup p s :
  log (cleanup p s) = log s ++ match hlsRef s with Some h => [HlsDestroy h] | None => [] end.
Proof.
  unfold cleanup, seq.
  destruct (write_playerRef_frame p absent (destroyHls s)) as (_ & _ & _ & -> & _).
  apply log_destroyHls.
Qed.

(** A trigger met with a stored instance adds, first, the destruction of
    that instance, and no other destruction. *)
Lemma trigger_log a s s' h :
  Inv s -> hlsRef s = Some h -> trigger a s = true -> step a s = Some s' ->
  exists rest, log s' = log s ++ HlsDestroy h :: rest /\ Forall constructive rest.
Proof.
  intros Hi Hh Ht Hstep.
  destruct (effect1 s) as [old|] eqn:He1;
    [|pose proof (inv_effect1 _ Hi He1); congruence].
  destruct a as [p v E|p E| |h' ev play]; simpl in Ht, Hstep; try discriminate.
  - case_bool_decide; [|done]. injection Hstep as <-.
    unfold rerender, seq. rewrite Ht. unfold seq, run_cleanup. rewrite He1. simpl.
    set (c2 := if bool_decide _ then updateVideoRef p else skip).
    assert (quiet c2) as Hq2 by (subst c2; auto with cmd).
    destruct (Hq2 (set_effect1 (Some p) (initHls p E (cleanup old s))))
      as (_ & _ & y & -> & Hy).
    simpl. destruct (initHls_constructive p E (cleanup old s)) as (x & -> & Hx).
    rewrite log_cleanup, Hh. exists (x ++ y).
    split; [by rewrite <- !app_assoc|].
    apply Forall_app. split; [done | by apply neutral_constructive].
  - case_bool_decide; [|done]. injection Hstep as <-.
    unfold unmount, seq, run_cleanup. simpl. rewrite He1.
    rewrite log_cleanup. simpl. rewrite Hh. by exists [].
Qed.

(** C1. At every point of every session (every prefix of the log of every
    reachable state) at most one instance has been constructed and not yet
    destroyed, and in a reachable state that instance is the one in
    [hlsRef].  When a trigger (a re-render that changes a dependency of the
    first effect, or the unmount) meets a live instance, that instance has
    not been destroyed before, and what the step adds to the log begins with
    its destruction, the only destruction in it: whatever is constructed
    comes after. *)
Theorem one_live_instance s :
  reachable s ->
  (forall pre, pre `prefix_of` log s -> length (live pre) <= 1) /\
  live (log s) = option_list (hlsRef s) /\
  (forall a s' h,
     h ∈ live (log s) -> trigger a s = true -> step a s = Some s' ->
     (HlsDestroy h ∉ log s) /\
     exists rest, emitted s s' = HlsDestroy h :: rest /\
                  Forall (fun e => forall h', e ≠ HlsDestroy h') rest).
Proof.
  intros Hr. pose proof (reachable_inv _ Hr) as Hi.
  split; [|split].
  - eapply monitor_at_most_one. apply (core_monitor _ (inv_core _ Hi)).
  - by apply reachable_live.
  - intros a s' h Hin Ht Hstep.
    pose proof (reachable_live_hlsRef _ _ Hr Hin) as Hh.
    split; [apply (core_fresh _ (inv_core _ Hi) h Hh)|].
    destruct (trigger_log a s s' h Hi Hh Ht Hstep) as (rest & Hl & Hrest).
    exists rest. split; [by apply emitted_app | exact Hrest].
Qed.

Lemma mounted_sample_reachable : reachable mounted_sample.
Proof.
  apply (reachable_step (Mount sample_props 7 mse) (initial ∅));
    [apply reachable_initial | reflexivity].
Qed.

Lemma one_live_instance_witness :
  exists rest,
    emitted mounted_sample (rerender (with_src "b.m3u8" sample_props) mse mounted_sample)
    = HlsDestroy 0 :: rest.
Proof.
  destruct (one_live_instance mounted_sample mounted_sample_reachable) as (_ & _ & H).
  destruct (H (Rerender (with_src "b.m3u8" sample_props) mse)
              (rerender (with_src "b.m3u8" sample_props) mse mounted_sample) 0)
    as (_ & rest & Hrest & _).
  - vm_compute. apply list_elem_of_here.
  - reflexivity.
  - reflexivity.
  - by exists rest.
Defined.

(** ** The error listener *)

Lemma static_onError p h event data : static (onError p h event data).
Proof. unfold onError. destruct (fatal data); [destruct (type data)|]; auto with cmd. Qed.

Lemma log_onError p h event data s :
  log (onError p h event data s) =
    log s ++
    (if fatal data then
       match type data with
       | NETWORK_ERROR => [HlsStartLoad h]
       | MEDIA_ERROR => [HlsRecoverMediaError h]
       | _ => match hlsRef s with Some h' => [HlsDestroy h'] | None => [] end
       end
     else []) ++
    calls (onHlsError p) (fun f => CallOnHlsError f event data).
Proof.
  unfold onError, seq. rewrite log_call.
  destruct (fatal data); [destruct (type data)|]; simpl;
    rewrite ?log_destroyHls, <- ?app_assoc; reflexivity.
Qed.

Lemma log_handle_error p h event data play s :
  microtasks s = [] -> hlsRef s = Some h ->
  log (handle p h (EvError event data) play s) =
    log s ++ recovery_policy h data ++
    calls (onHlsError p) (fun f => CallOnHlsError f event data).
Proof.
  intros Hm Hh. unfold handle, seq, drain. simpl.
  destruct (static_onError p h event data s) as (_ & _ & ->).
  rewrite Hm, app_nil_r, log_onError, Hh. unfold recovery_policy.
  destruct (fatal data); [destruct (type data)|]; reflexivity.
Qed.

Lemma handle_error_playerRef p h event data play s :
  internalPlayerRef (handle p h (EvError event data) play s) = internalPlayerRef s /\
  refs (handle p h (EvError event data) play s) = refs s.
Proof.
  unfold handle, seq, drain. simpl. unfold onError, seq.
  match goal with |- context [call ?f ?k ?x] =>
    destruct (call_frame f k x) as (_ & _ & -> & -> & _) end.
  destruct (fatal data); [destruct (type data)|]; try done;
    unfold destroyHls; by destruct (hlsRef s).
Qed.

(** C2. For every error event of the live instance, the step the listener
    takes adds to the log exactly the action of the recovery table (at most
    one: [startLoad] for a fatal network error, [recoverMediaError] for a
    fatal media error, [destroy] for any other fatal error, nothing for a
    non-fatal one) followed by the call of [onHlsError], when the caller
    supplied it, with the event and the payload as received: one call,
    after the recovery action, whatever the error was. *)
Theorem error_recovery_then_forward s h p event data play :
  reachable s -> h ∈ live (log s) -> listener h ERROR s = Some p ->
  exists s',
    step (Emit h (EvError event data) play) s = Some s' /\
    emitted s s' =
      recovery_policy h data ++
      calls (onHlsError p) (fun f => CallOnHlsError f event data) /\
    length (recovery_policy h data) <= 1 /\
    (forall e, e ∈ recovery_policy h data -> forall f ev d, e ≠ CallOnHlsError f ev d) /\
    (forall f, onHlsError p = Some f ->
       emitted s s' = recovery_policy h data ++ [CallOnHlsError f event data]).
Proof.
  intros Hr Hin Hl.
  pose proof (reachable_live_hlsRef _ _ Hr Hin) as Hh.
  pose proof (inv_micro _ (reachable_inv _ Hr)) as Hm.
  exists (handle p h (EvError event data) play s).
  split; [simpl; by rewrite Hl|].
  pose proof (emitted_app _ _ _ (log_handle_error p h event data play s Hm Hh)) as He.
  split; [exact He|]. split; [|split].
  - unfold recovery_policy. destruct (fatal data); repeat case_decide; simpl; lia.
  - intros e. unfold recovery_policy.
    destruct (fatal data); repeat case_decide;
      intros Hin' f ev d ->;
      repeat (apply elem_of_cons in Hin' as [Hin' | Hin']; [discriminate|]);
      by apply elem_of_nil in Hin'.
  - intros f Hf. by rewrite He, Hf.
Qed.

Lemma error_recovery_then_forward_witness :
  emitted mounted_sample
    (handle sample_props 0 (EvError "hlsError" network_failure) Fulfilled mounted_sample)
  = [HlsStartLoad 0; CallOnHlsError 3 "hlsError" network_failure].
Proof.
  destruct (error_recovery_then_forward mounted_sample 0 sample_props "hlsError"
              network_failure Fulfilled mounted_sample_reachable)
    as (s' & Hs & _ & _ & _ & He).
  - vm_compute. apply list_elem_of_here.
  - reflexivity.
  - injection Hs as <-. exact (He 3 eq_refl).
Defined.

(** C3, as the code has it.  For every fatal error of the live instance
    whose type is neither network nor media, the listener destroys the
    instance and clears [hlsRef] before it calls [onHlsError]; it does not
    touch the published object (the caller's [playerRef] or the internal
    one), which keeps what it held. *)
Theorem fatal_other_error_destroys s h p event data play :
  reachable s -> h ∈ live (log s) -> listener h ERROR s = Some p ->
  fatal data = true -> type data ≠ NETWORK_ERROR -> type data ≠ MEDIA_ERROR ->
  exists s',
    step (Emit h (EvError event data) play) s = Some s' /\
    emitted s s' =
      HlsDestroy h :: calls (onHlsError p) (fun f => CallOnHlsError f event data) /\
    hlsRef s' = None /\
    live (log s') = [] /\
    internalPlayerRef s' = internalPlayerRef s /\
    refs s' = refs s.
Proof.
  intros Hr Hin Hl Hf Hn Hmd.
  pose proof (reachable_live_hlsRef _ _ Hr Hin) as Hh.
  pose proof (inv_micro _ (reachable_inv _ Hr)) as Hm.
  assert (step (Emit h (EvError event data) play) s
          = Some (handle p h (EvError event data) play s)) as Hstep
    by (simpl; by rewrite Hl).
  exists (handle p h (EvError event data) play s).
  split; [exact Hstep|].
  assert (hlsRef (handle p h (EvError event data) play s) = None) as Hnone.
  { unfold handle, seq, drain. simpl. unfold onError, seq.
    match goal with |- context [call ?f ?k ?x] =>
      destruct (call_frame f k x) as (-> & _) end.
    rewrite Hf. destruct (type data); try done; apply hlsRef_destroyHls. }
  split; [|split; [exact Hnone|split; [|apply handle_error_playerRef]]].
  - apply emitted_app. rewrite (log_handle_error _ _ _ _ _ _ Hm Hh).
    unfold recovery_policy. rewrite Hf. by rewrite !decide_False.
  - rewrite (reachable_live _ (reachable_step _ _ _ Hr Hstep)). by rewrite Hnone.
Qed.

Lemma fatal_other_error_destroys_witness :
  emitted mounted_sample
    (handle sample_props 0 (EvError "hlsError" key_failure) Fulfilled mounted_sample)
  = [HlsDestroy 0; CallOnHlsError 3 "hlsError" key_failure].
Proof.
  destruct (fatal_other_error_destroys mounted_sample 0 sample_props "hlsError"
              key_failure Fulfilled mounted_sample_reachable)
    as (s' & Hs & He & _).
  - vm_compute. apply list_elem_of_here.
  - reflexivity.
  - reflexivity.
  - discriminate.
  - discriminate.
  - injection Hs as <-. exact He.
Defined.

(** C3, as stated, fails: after a fatal key-system error on a mounted
    player the instance is destroyed and [onHlsError] has been called, and
    the published object still holds the element and the destroyed
    instance. *)
Lemma fatal_other_error_keeps_playerRef :
  exists s',
    run [Mount sample_props 7 mse; Emit 0 (EvError "hlsError" key_failure) Fulfilled]
        (initial ∅) = Some s' /\
    emitted mounted_sample s' = [HlsDestroy 0; CallOnHlsError 3 "hlsError" key_failure] /\
    read_playerRef sample_props s' = {| video := Some 7; hls := Some 0 |} /\
    read_playerRef sample_props s' ≠ absent.
Proof.
  exists (handle sample_props 0 (EvError "hlsError" key_failure) Fulfilled mounted_sample).
  split; [vm_compute; reflexivity|].
  split; [vm_compute; reflexivity|].
  split; [vm_compute; reflexivity|].
  vm_compute. discriminate.
Qed.

(** ** The manifest listener *)

(** C5. When the manifest is parsed with [autoPlay] set and the browser
    rejects [video.play()], the step adds to the log the play command, the
    call of [onHlsManifestParsed] with the payload of the event (when the
    caller supplied it), and then the [console.error] of the rejection;
    no rejection is left unhandled, the microtask queue is empty again and
    the stored instance is untouched. *)
Theorem autoplay_rejection_swallowed s h p data reason v :
  reachable s -> listener h MANIFEST_PARSED s = Some p ->
  truthy_flag (autoPlay p) = true -> videoRef s = Some v ->
  exists s',
    step (Emit h (EvManifestParsed data) (Rejected reason)) s = Some s' /\
    emitted s s' =
      [VideoPlay v] ++
      calls (onHlsManifestParsed p) (fun f => CallOnHlsManifestParsed f data) ++
      [ConsoleError "Autoplay failed:" (Some reason)] /\
    (forall r, UnhandledRejection r ∉ emitted s s') /\
    (forall f, onHlsManifestParsed p = Some f ->
       CallOnHlsManifestParsed f data ∈ emitted s s') /\
    microtasks s' = [] /\
    hlsRef s' = hlsRef s.
Proof.
  intros Hr Hl Ha Hv.
  pose proof (inv_micro _ (reachable_inv _ Hr)) as Hm.
  exists (handle p h (EvManifestParsed data) (Rejected reason) s).
  split; [simpl; by rewrite Hl|].
  assert (emitted s (handle p h (EvManifestParsed data) (Rejected reason) s) =
          [VideoPlay v] ++
          calls (onHlsManifestParsed p) (fun f => CallOnHlsManifestParsed f data) ++
          [ConsoleError "Autoplay failed:" (Some reason)]) as He.
  { apply emitted_app. unfold handle, seq, drain, listen, onManifestParsed, seq.
    rewrite Ha, Hv. simpl.
    destruct (onHlsManifestParsed p); simpl; rewrite Hm; simpl;
      by rewrite <- ?app_assoc. }
  split; [exact He|]. rewrite He. split; [|split; [|split]].
  - intros r Hin. destruct (onHlsManifestParsed p); simpl in Hin;
      repeat (apply elem_of_cons in Hin as [Hin | Hin]; [discriminate|]);
      by apply elem_of_nil in Hin.
  - intros f ->. simpl. apply list_elem_of_further, list_elem_of_here.
  - reflexivity.
  - unfold handle, seq, drain, listen, onManifestParsed, seq.
    rewrite Ha, Hv. simpl. by destruct (onHlsManifestParsed p).
Qed.

Lemma autoplay_rejection_swallowed_witness :
  emitted mounted_sample
    (handle sample_props 0 (EvManifestParsed 11) (Rejected "NotAllowedError") mounted_sample)
  = [VideoPlay 7; CallOnHlsManifestParsed 5 11;
     ConsoleError "Autoplay failed:" (Some "NotAllowedError")].
Proof.
  destruct (autoplay_rejection_swallowed mounted_sample 0 sample_props 11
              "NotAllowedError" 7 mounted_sample_reachable)
    as (s' & Hs & He & _).
  - reflexivity.
  - reflexivity.
  - reflexivity.
  - injection Hs as <-. exact He.
Defined.

(** ** Without Media Source Extensions *)

(** C8, as the code has it.  When [Hls.isSupported()] is false, [initHls]
    constructs nothing ([hlsRef], the allocator and the listeners are as
    before), leaves the published object as it was, and adds one effect to
    the log: the assignment of [src] to the element when the element can
    play the type, the [console.error] otherwise.  The second effect, when
    React runs it, then stores the element in the [video] field of the
    published object and keeps its [hls] field; it logs nothing. *)
Theorem initHls_without_engine p E s v :
  videoRef s = Some v -> isSupported E = false ->
  let s1 := initHls p E s in
  let s2 := updateVideoRef p s1 in
  emitted s s1 =
    (if truthy_string (canPlayType E "application/vnd.apple.mpegurl") then [VideoSetSrc v (src p)]
     else [ConsoleError "HLS is not supported in this browser" None]) /\
  hlsRef s1 = hlsRef s /\ nextHls s1 = nextHls s /\ handlers s1 = handlers s /\
  internalPlayerRef s1 = internalPlayerRef s /\ refs s1 = refs s /\
  read_playerRef p s1 = read_playerRef p s /\
  read_playerRef p s2 = {| video := Some v; hls := hls (read_playerRef p s) |} /\
  emitted s1 s2 = [] /\ hlsRef s2 = hlsRef s.
Proof.
  intros Hv HE s1 s2.
  assert (s1 = emit (if truthy_string (canPlayType E "application/vnd.apple.mpegurl")
                     then VideoSetSrc v (src p)
                     else ConsoleError "HLS is not supported in this browser" None) s) as H1.
  { subst s1. unfold initHls. rewrite Hv, HE.
    by destruct (truthy_string _). }
  assert (s2 = write_playerRef p {| video := Some v; hls := hls (read_playerRef p s) |} s1)
    as H2.
  { subst s2. unfold updateVideoRef. rewrite H1. simpl. rewrite Hv. reflexivity. }
  destruct (write_playerRef_frame p {| video := Some v; hls := hls (read_playerRef p s) |} s1)
    as (Hh & _ & _ & Hlog & _).
  split; [apply emitted_app; rewrite H1; by destruct (truthy_string _)|].
  do 6 (split; [by rewrite H1|]).
  split; [rewrite H2; apply read_write_playerRef|].
  split; [apply emitted_app; rewrite H2, Hlog; by rewrite app_nil_r|].
  rewrite H2, Hh. by rewrite H1.
Qed.

Lemma initHls_without_engine_witness :
  emitted (mounting 7) (initHls sample_props legacy (mounting 7)) =
    [ConsoleError "HLS is not supported in this browser" None] /\
  read_playerRef sample_props
    (updateVideoRef sample_props (initHls sample_props legacy (mounting 7))) =
    {| video := Some 7; hls := None |}.
Proof.
  destruct (initHls_without_engine sample_props legacy (mounting 7) 7 eq_refl eq_refl)
    as (H1 & _ & _ & _ & _ & _ & _ & H2 & _).
  split; [exact H1 | exact H2].
Defined.

(** C8, as stated, fails: on a browser with neither Media Source
    Extensions nor native HLS, mounting the player logs the capability
    error, constructs nothing, and leaves the element in the published
    object, which is therefore not [{ video: null, hls: null }]. *)
Lemma unsupported_mount_publishes_video :
  exists s',
    run [Mount sample_props 7 legacy] (initial ∅) = Some s' /\
    log s' = [ConsoleError "HLS is not supported in this browser" None] /\
    hlsRef s' = None /\
    read_playerRef sample_props s' = {| video := Some 7; hls := None |} /\
    read_playerRef sample_props s' ≠ absent.
Proof.
  exists (mount sample_props 7 legacy (initial ∅)).
  split; [vm_compute; reflexivity|].
  split; [vm_compute; reflexivity|].
  split; [vm_compute; reflexivity|].
  split; [vm_compute; reflexivity|].
  vm_compute. discriminate.
Qed.

(** ** The rendered element *)

(** C9, as the code has it.  The rendered element carries every attribute
    of the rest props with the caller's value, and nothing else but
    [controls], which is [true] unless the caller passes a [controls] of
    their own: the spread comes after [controls={true}] and wins. *)
Theorem render_attributes p :
  ref_attached (render p) = true /\
  (forall k x, props p !! k = Some x -> attributes (render p) !! k = Some x) /\
  (props p !! "controls" = None ->
     attributes (render p) !! "controls" = Some (JBool true)) /\
  (forall k, k ≠ "controls" -> attributes (render p) !! k = props p !! k).
Proof.
  unfold render. simpl. split; [reflexivity|]. split; [|split].
  - intros k x Hk. by apply lookup_union_Some_l.
  - intros Hk. rewrite lookup_union_r by done. apply lookup_singleton_eq.
  - intros k Hk. rewrite lookup_union, lookup_singleton_ne by done.
    by destruct (props p !! k).
Qed.

(** C9, as stated, fails: a caller who passes [controls={false}] gets an
    element without controls. *)
Lemma controls_not_forced :
  attributes (render (with_props {[ "controls" := JBool false ]} sample_props))
    !! "controls" = Some (JBool false) /\
  attributes (render (with_props {[ "controls" := JBool false ]} sample_props))
    !! "controls" ≠ Some (JBool true).
Proof. split; [vm_compute; reflexivity | vm_compute; discriminate]. Qed.

Lemma render_attributes_witness :
  attributes (render sample_props) !! "controls" = Some (JBool true).
Proof.
  destruct (render_attributes sample_props) as (_ & _ & H & _).
  apply H. reflexivity.
Defined.

Lemma destroyHls_idempotent_witness :
  destroyHls (initial ∅) = initial ∅ /\
  destroyHls (destroyHls mounted_sample) = destroyHls mounted_sample.
Proof.
  split.
  - destruct (destroyHls_idempotent (initial ∅)) as (_ & _ & H & _).
    apply H. reflexivity.
  - destruct (destroyHls_idempotent mounted_sample) as (_ & H & _). exact H.
Defined.

(** ** Further checks of the model on concrete sessions *)

(** A caller's value replaces a default, and an unrelated key is added. *)
Example config_override :
  newHlsConfig
    (with_hlsConfig (Some (1, {[ "lowLatencyMode" := JBool true; "backBufferLength" := JNum 90 ]}))
       sample_props)
  = {[ "enableWorker" := JBool true; "lowLatencyMode" := JBool true;
       "backBufferLength" := JNum 90 ]}.
Proof. apply map_eq. intros k. vm_compute. reflexivity. Qed.

(** A change of any dependency re-runs the first effect; so does, alone, a
    change of [src]. *)
Lemma deps_change_rebinds old new s :
  effect1 s = Some old -> deps1 old ≠ deps1 new -> rebinds new s = true.
Proof.
  intros He Hd. unfold rebinds, deps1_changed. rewrite He.
  destruct (hlsConfig new); [|reflexivity].
  by apply bool_decide_eq_true_2.
Qed.

Lemma src_change_rebinds old new s :
  effect1 s = Some old -> src old ≠ src new -> rebinds new s = true.
Proof.
  intros He Hs. apply (deps_change_rebinds old); [done|].
  unfold deps1. congruence.
Qed.

(** A re-render with the same dependencies leaves the engine alone. *)
Example same_props_no_rebind :
  emitted mounted_sample (rerender sample_props mse mounted_sample) = [].
Proof. vm_compute. reflexivity. Qed.

(** Unmounting the sample player destroys its instance and resets the
    published object. *)
Example unmount_sample :
  emitted mounted_sample (unmount mounted_sample) = [HlsDestroy 0] /\
  read_playerRef sample_props (unmount mounted_sample) = absent.
Proof. split; vm_compute; reflexivity. Qed.

(** On a browser without any HLS support the second effect runs at the
    mount and at the first re-render only: from the second re-render on, a
    rebind leaves the published object empty. *)
Example unsupported_third_render :
  (read_playerRef sample_props <$>
     run [Mount sample_props 7 legacy;
          Rerender (with_src "b.m3u8" sample_props) legacy] (initial ∅))
  = Some {| video := Some 7; hls := None |} /\
  (read_playerRef sample_props <$>
     run [Mount sample_props 7 legacy;
          Rerender (with_src "b.m3u8" sample_props) legacy;
          Rerender (with_src "c.m3u8" sample_props) legacy] (initial ∅))
  = Some absent.
Proof. split; vm_compute; reflexivity. Qed.

(** Safari: the source goes to the element and no instance exists. *)
Example native_mount :
  log <$> run [Mount sample_props 7 safari] (initial ∅)
  = Some [VideoSetSrc 7 "a.m3u8"].
Proof. vm_compute. reflexivity. Qed.

(** * Further properties *)

(** ** What each part of the component leaves untouched *)

Lemma destroyHls_frame s :
  videoRef (destroyHls s) = videoRef s /\
  internalPlayerRef (destroyHls s) = internalPlayerRef s /\
  refs (destroyHls s) = refs s /\
  handlers (destroyHls s) = handlers s /\
  nextHls (destroyHls s) = nextHls s /\
  effect2 (destroyHls s) = effect2 s.
Proof. unfold destroyHls. frame. Qed.

Lemma cleanup_frame p s :
  videoRef (cleanup p s) = videoRef s /\
  handlers (cleanup p s) = handlers s /\
  nextHls (cleanup p s) = nextHls s /\
  phase (cleanup p s) = phase s /\
  effect1 (cleanup p s) = effect1 s /\
  effect2 (cleanup p s) = effect2 s.
Proof. unfold cleanup, destroyHls. frame. Qed.

Lemma run_cleanup_frame s :
  videoRef (run_cleanup s) = videoRef s /\
  handlers (run_cleanup s) = handlers s /\
  nextHls (run_cleanup s) = nextHls s /\
  phase (run_cleanup s) = phase s /\
  effect1 (run_cleanup s) = effect1 s /\
  effect2 (run_cleanup s) = effect2 s.
Proof.
  unfold run_cleanup. destruct (effect1 s) as [old|] eqn:He; [|by repeat split].
  rewrite <- He. apply cleanup_frame.
Qed.

Lemma updateVideoRef_frame p s :
  hlsRef (updateVideoRef p s) = hlsRef s /\
  videoRef (updateVideoRef p s) = videoRef s /\
  handlers (updateVideoRef p s) = handlers s /\
  nextHls (updateVideoRef p s) = nextHls s /\
  log (updateVideoRef p s) = log s /\
  phase (updateVideoRef p s) = phase s /\
  effect1 (updateVideoRef p s) = effect1 s /\
  effect2 (updateVideoRef p s) = effect2 s.
Proof. unfold updateVideoRef. frame. Qed.

(** A listener, and the microtasks it leaves, touch neither the published
    object, nor the element, nor the listeners, nor what React holds. *)
Lemma handle_frame p h ev play s :
  videoRef (handle p h ev play s) = videoRef s /\
  internalPlayerRef (handle p h ev play s) = internalPlayerRef s /\
  refs (handle p h ev play s) = refs s /\
  handlers (handle p h ev play s) = handlers s /\
  nextHls (handle p h ev play s) = nextHls s /\
  phase (handle p h ev play s) = phase s /\
  effect1 (handle p h ev play s) = effect1 s /\
  effect2 (handle p h ev play s) = effect2 s.
Proof.
  unfold handle, listen, onMediaAttached, onManifestParsed, onError, onLevelSwitched,
    destroyHls.
  destruct ev; frame.
Qed.

(** The state after the branch of [initHls] that constructs an instance. *)
Lemma initHls_software_state p E s v :
  videoRef s = Some v -> isSupported E = true ->
  hlsRef (initHls p E s) = Some (nextHls s) /\
  nextHls (initHls p E s) = S (nextHls s) /\
  videoRef (initHls p E s) = Some v /\
  handlers (initHls p E s) =
    handlers s ++
    [(nextHls s, MEDIA_ATTACHED, p); (nextHls s, MANIFEST_PARSED, p);
     (nextHls s, ERROR, p); (nextHls s, LEVEL_SWITCHED, p)] /\
  read_playerRef p (initHls p E s) = {| video := Some v; hls := Some (nextHls s) |} /\
  effect2 (initHls p E s) = effect2 s.
Proof.
  intros Hv HE. unfold initHls. rewrite Hv, HE.
  unfold read_playerRef, on, newHls. frame; rewrite <- ?app_assoc; try done.
  all: by rewrite lookup_insert_eq.
Qed.

(** The state after the other branches of [initHls]. *)
Lemma initHls_other_state p E s :
  isSupported E = false \/ videoRef s = None ->
  hlsRef (initHls p E s) = hlsRef s /\
  nextHls (initHls p E s) = nextHls s /\
  videoRef (initHls p E s) = videoRef s /\
  handlers (initHls p E s) = handlers s /\
  internalPlayerRef (initHls p E s) = internalPlayerRef s /\
  refs (initHls p E s) = refs s /\
  effect2 (initHls p E s) = effect2 s.
Proof.
  intros H. unfold initHls. destruct (videoRef s) as [v|] eqn:Hv; [|by repeat split].
  destruct H as [-> | [=]]. frame.
Qed.

(** ** The refs in reachable states *)

Lemma initHls_registered p E s :
  registered s -> registered (initHls p E s).
Proof.
  unfold registered. intros Hr.
  destruct (videoRef s) as [v|] eqn:Hv; [destruct (isSupported E) eqn:HE|].
  - destruct (initHls_software_state p E s v Hv HE) as (_ & -> & _ & -> & _).
    apply Forall_app. split.
    + eapply Forall_impl; [exact Hr|]. simpl. intros x Hx. lia.
    + repeat constructor; simpl; lia.
  - destruct (initHls_other_state p E s (or_introl HE)) as (_ & -> & _ & -> & _). done.
  - destruct (initHls_other_state p E s (or_intror Hv)) as (_ & -> & _ & -> & _). done.
Qed.

Lemma initHls_videoRef p E s : videoRef (initHls p E s) = videoRef s.
Proof.
  destruct (videoRef s) as [v|] eqn:Hv; [destruct (isSupported E) eqn:HE|].
  - by destruct (initHls_software_state p E s v Hv HE) as (_ & _ & -> & _).
  - destruct (initHls_other_state p E s (or_introl HE)) as (_ & _ & -> & _). done.
  - destruct (initHls_other_state p E s (or_intror Hv)) as (_ & _ & -> & _). done.
Qed.

Lemma mount_refs p v E s :
  videoRef (mount p v E s) = Some v /\
  phase (mount p v E s) = Mounted /\
  (registered s -> registered (mount p v E s)).
Proof.
  unfold mount, seq. simpl.
  set (s0 := set_videoRef (Some v) (set_phase Mounted s)).
  destruct (updateVideoRef_frame p (set_effect1 (Some p) (initHls p E s0)))
    as (_ & Hv & Hh & Hn & _ & Hp & _).
  split; [rewrite Hv; simpl; by rewrite initHls_videoRef|].
  split; [rewrite Hp; simpl; by destruct (static_initHls p E s0) as (-> & _)|].
  intros Hr. unfold registered in *. simpl. rewrite Hh, Hn. simpl.
  by apply (initHls_registered p E s0).
Qed.

Lemma rerender_refs p E s :
  videoRef (rerender p E s) = videoRef s /\
  (registered s -> registered (rerender p E s)).
Proof.
  unfold rerender, seq, registered. simpl.
  set (c2 := if bool_decide _ then updateVideoRef p else skip).
  assert (forall t, videoRef (c2 t) = videoRef t /\ handlers (c2 t) = handlers t /\
                    nextHls (c2 t) = nextHls t) as H2.
  { intros t. subst c2. case_bool_decide; [|done].
    by destruct (updateVideoRef_frame p t) as (_ & -> & -> & -> & _). }
  destruct (rebinds p s).
  - unfold seq.
    destruct (H2 (set_effect1 (Some p) (initHls p E (run_cleanup s)))) as (-> & -> & ->).
    simpl. rewrite initHls_videoRef.
    destruct (run_cleanup_frame s) as (Hv & Hh & Hn & _).
    split; [done|]. intros Hr. apply (initHls_registered p E (run_cleanup s)).
    unfold registered. by rewrite Hh, Hn.
  - unfold skip. by destruct (H2 s) as (-> & -> & ->).
Qed.

Lemma unmount_refs s :
  Inv s ->
  phase (unmount s) = Unmounted /\ videoRef (unmount s) = None /\
  hlsRef (unmount s) = None /\ effect1 (unmount s) = None /\
  handlers (unmount s) = handlers s /\ nextHls (unmount s) = nextHls s.
Proof.
  intros [Hc Hm Hp He]. unfold unmount, seq. simpl.
  set (s0 := set_videoRef None (set_phase Unmounted s)).
  assert (Core s0) as Hc0.
  { subst s0. by do 2 (apply quiet_core; [solve [auto with cmd]|]). }
  destruct (run_cleanup_core s0 Hc0 He) as [_ Hh].
  destruct (run_cleanup_frame s0) as (-> & -> & -> & -> & _).
  by repeat split.
Qed.

Lemma handle_hlsRef p h ev play s :
  hlsRef (handle p h ev play s) = hlsRef s \/ hlsRef (handle p h ev play s) = None.
Proof.
  unfold handle, listen, onMediaAttached, onManifestParsed, onError, onLevelSwitched,
    destroyHls.
  destruct ev; frame; auto.
Qed.

Lemma initial_shape r : Shape (initial r).
Proof. split; [done | done | constructor | done | done]. Qed.

Lemma mount_effect1 p v E s : effect1 (mount p v E s) = Some p.
Proof.
  unfold mount, seq. simpl.
  by destruct (updateVideoRef_frame p (set_effect1 (Some p)
        (initHls p E (set_videoRef (Some v) (set_phase Mounted s)))))
    as (_ & _ & _ & _ & _ & _ & -> & _).
Qed.

Lemma step_shape a s s' : Inv s -> Shape s -> step a s = Some s' -> Shape s'.
Proof.
  intros Hi [Hv Hb Hr Hu Hs]. destruct a as [p v E|p E| |h ev play]; simpl.
  - case_bool_decide; [|done]. intros [= <-].
    destruct (mount_refs p v E s) as (Hv' & Hp' & Hr').
    split; [by rewrite Hv' | by rewrite mount_effect1 | by apply Hr' | by rewrite Hp' |].
    rewrite mount_effect1. by intros old d [= <-] [= <-].
  - case_bool_decide as Hm; [|done]. intros [= <-].
    destruct (rerender_refs p E s) as (Hv' & Hr').
    destruct (rerender_shape p E s) as (Hp' & _ & He').
    split; [rewrite Hv'; intros _; by apply Hv | | by apply Hr' | rewrite Hp', Hm; done |].
    + intros _. destruct (rebinds p s); [by rewrite He'|].
      destruct He' as [-> _]. by apply Hb.
    + assert (effect2 (rerender p E s) = Some (videoRef s, playerRef p)) as -> by done.
      intros old d Ho [= <-]. simpl.
      destruct (rebinds p s) eqn:Hrb; [congruence|].
      destruct He' as [He' _]. rewrite He' in Ho.
      unfold rebinds, deps1_changed in Hrb. rewrite Ho in Hrb.
      destruct (hlsConfig p); [|done].
      apply bool_decide_eq_false in Hrb. apply dec_stable in Hrb.
      unfold deps1 in Hrb. congruence.
  - case_bool_decide as Hm; [|done]. intros [= <-].
    destruct (unmount_refs s Hi) as (Hp' & _ & Hh' & He' & Hhd & Hn).
    split; [by rewrite Hp' | by rewrite Hp' | unfold registered in *; by rewrite Hhd, Hn
           | done | by rewrite He'].
  - destruct (listener h (kind ev) s) as [p|]; [|done]. intros [= <-].
    destruct (handle_frame p h ev play s) as (Hv' & _ & _ & Hhd & Hn & Hp' & He' & He2).
    split.
    + rewrite Hp', Hv'. exact Hv.
    + rewrite Hp', He'. exact Hb.
    + unfold registered in *. by rewrite Hhd, Hn.
    + rewrite Hp'. intros Hun. specialize (Hu Hun).
      destruct (handle_hlsRef p h ev play s) as [-> | ->]; done.
    + rewrite He', He2. exact Hs.
Qed.

Lemma reachable_shape s : reachable s -> Shape s.
Proof.
  induction 1 as [r | a s s' Hr IH Hstep]; [apply initial_shape|].
  eapply step_shape; [by apply reachable_inv | exact IH | exact Hstep].
Qed.

(** ** A bind on a browser with Media Source Extensions *)

Lemma listener_fresh (l : list (Hls * Events * HlsPlayerProps)) h k p :
  Forall (fun x : Hls * Events * HlsPlayerProps => x.1.1 < h) l ->
  snd <$> find (fun x => bool_decide (x.1 = (h, k)))
            (l ++ [(h, MEDIA_ATTACHED, p); (h, MANIFEST_PARSED, p);
                   (h, ERROR, p); (h, LEVEL_SWITCHED, p)])
  = Some p.
Proof.
  induction 1 as [|[[h' k'] p'] l Hlt _ IH]; simpl.
  - destruct k; repeat (case_bool_decide; try done); congruence.
  - simpl in Hlt. rewrite bool_decide_eq_false_2; [exact IH|].
    intros [= -> _]. lia.
Qed.

(** The effects of a commit that binds, from the state [t] the cleanup
    left: [initHls], and the second effect when React runs it. *)
Lemma bind_state p E t v (again : bool) :
  videoRef t = Some v -> isSupported E = true -> registered t ->
  let t' := (if again then updateVideoRef p else skip)
              (set_effect1 (Some p) (initHls p E t)) in
  hlsRef t' = Some (nextHls t) /\
  videoRef t' = Some v /\
  read_playerRef p t' = {| video := Some v; hls := Some (nextHls t) |} /\
  (forall k, listener (nextHls t) k t' = Some p) /\
  effect1 t' = Some p.
Proof.
  intros Hv HE Hr.
  destruct (initHls_software_state p E t v Hv HE) as (Hh & _ & Hv' & Hhd & Hread & _).
  set (t1 := set_effect1 (Some p) (initHls p E t)).
  assert (read_playerRef p t1 = {| video := Some v; hls := Some (nextHls t) |}) as Hread1
    by exact Hread.
  destruct again; simpl.
  - destruct (updateVideoRef_frame p t1) as (-> & -> & Hhd' & _ & _ & _ & -> & _).
    repeat split; try done.
    + unfold updateVideoRef. replace (videoRef t1) with (Some v) by (symmetry; exact Hv').
      rewrite read_write_playerRef. by rewrite Hread1.
    + intros k. unfold listener. rewrite Hhd'. subst t1. simpl. rewrite Hhd.
      by apply listener_fresh.
  - unfold skip. repeat split; try done.
    intros k. unfold listener. subst t1. simpl. rewrite Hhd. by apply listener_fresh.
Qed.

(** X1. A mount, or a re-render that re-runs the first effect, on a browser
    where [Hls.isSupported()] holds ends with one new instance: it is the
    only live one, it is the one in [hlsRef], the published object holds
    the element and this instance, the bind is remembered with the props of
    this render, and each of the four events of the instance reaches a
    listener that closes over these props. *)
Theorem bind_constructs_instance a s s' p E :
  reachable s -> step a s = Some s' ->
  (exists v, a = Mount p v E) \/ (a = Rerender p E /\ rebinds p s = true) ->
  isSupported E = true ->
  hlsRef s' = Some (nextHls s) /\
  live (log s') = [nextHls s] /\
  (exists v, videoRef s' = Some v /\
             read_playerRef p s' = {| video := Some v; hls := Some (nextHls s) |}) /\
  (forall k, listener (nextHls s) k s' = Some p) /\
  effect1 s' = Some p.
Proof.
  intros Hr Hstep Ha HE.
  pose proof (reachable_shape _ Hr) as [Hvid _ Hreg _ _].
  assert (hlsRef s' = Some (nextHls s) ->
          live (log s') = [nextHls s]) as Hlive.
  { intros Hh. rewrite (reachable_live _ (reachable_step _ _ _ Hr Hstep)). by rewrite Hh. }
  destruct Ha as [[v ->] | [-> Hb]]; simpl in Hstep.
  - case_bool_decide; [|done]. injection Hstep as <-.
    set (s0 := set_videoRef (Some v) (set_phase Mounted s)).
    destruct (bind_state p E s0 v true eq_refl HE Hreg) as (Hh & Hv & Hread & Hl & He).
    assert (hlsRef (mount p v E s) = Some (nextHls s)) as Hh' by exact Hh.
    split; [exact Hh'|]. split; [by apply Hlive|].
    split; [exists v; split; [exact Hv | exact Hread]|].
    split; [exact Hl | exact He].
  - case_bool_decide as Hm; [|done]. injection Hstep as <-.
    destruct (Hvid Hm) as [v Hv].
    destruct (run_cleanup_frame s) as (Hv0 & Hh0 & Hn0 & _).
    assert (registered (run_cleanup s)) as Hreg0
      by (unfold registered; by rewrite Hh0, Hn0).
    rewrite <- Hv0 in Hv.
    destruct (bind_state p E (run_cleanup s) v
                (bool_decide (effect2 s ≠ Some (videoRef s, playerRef p))) Hv HE Hreg0)
      as (Hh & Hv' & Hread & Hl & He).
    rewrite Hn0 in Hh, Hread, Hl.
    assert (rerender p E s =
            set_effect2 (Some (videoRef s, playerRef p))
              ((if bool_decide (effect2 s ≠ Some (videoRef s, playerRef p))
                then updateVideoRef p else skip)
                 (set_effect1 (Some p) (initHls p E (run_cleanup s))))) as Heq.
    { unfold rerender, seq. by rewrite Hb. }
    rewrite Heq in Hlive |- *.
    split; [exact Hh|]. split; [apply Hlive; exact Hh|].
    split; [exists v; split; [exact Hv' | exact Hread]|].
    split; [exact Hl | exact He].
Qed.

Lemma bind_constructs_instance_witness :
  hlsRef (rerender (with_src "b.m3u8" sample_props) mse mounted_sample) = Some 1 /\
  live (log (rerender (with_src "b.m3u8" sample_props) mse mounted_sample)) = [1].
Proof.
  destruct (bind_constructs_instance
              (Rerender (with_src "b.m3u8" sample_props) mse) mounted_sample
              (rerender (with_src "b.m3u8" sample_props) mse mounted_sample)
              (with_src "b.m3u8" sample_props) mse mounted_sample_reachable)
    as (H1 & H2 & _).
  - reflexivity.
  - right. split; reflexivity.
  - reflexivity.
  - split; [exact H1 | exact H2].
Defined.

(** ** After the unmount *)

(** X2. Once the component is unmounted no instance is stored or live, and
    none appears later: whatever events the engine still delivers, every
    reachable state of an unmounted component has [hlsRef] null and no live
    instance. *)
Theorem no_instance_after_unmount s :
  reachable s -> phase s = Unmounted ->
  hlsRef s = None /\ live (log s) = [].
Proof.
  intros Hr Hu. pose proof (shape_unmounted _ (reachable_shape _ Hr) Hu) as Hh.
  split; [exact Hh|]. rewrite (reachable_live _ Hr). by rewrite Hh.
Qed.

Lemma unmounted_sample_reachable :
  reachable (handle sample_props 0 (EvError "hlsError" key_failure) Fulfilled
               (unmount mounted_sample)).
Proof.
  apply (reachable_step (Emit 0 (EvError "hlsError" key_failure) Fulfilled)
           (unmount mounted_sample)).
  - apply (reachable_step Unmount mounted_sample);
      [apply mounted_sample_reachable | reflexivity].
  - vm_compute. reflexivity.
Qed.

Lemma no_instance_after_unmount_witness :
  live (log (handle sample_props 0 (EvError "hlsError" key_failure) Fulfilled
               (unmount mounted_sample))) = [].
Proof.
  apply (no_instance_after_unmount _ unmounted_sample_reachable). reflexivity.
Defined.

(** ** The dependencies of the first effect *)

(** X3. A caller who omits [hlsConfig] gets a new [{}] at every render, so
    every re-render re-runs the first effect, whatever else changed or did
    not: the live instance is destroyed first, and on a browser with Media
    Source Extensions another instance is constructed and stored. *)
Theorem omitted_hlsConfig_rebinds s p E h :
  reachable s -> phase s = Mounted -> hlsConfig p = None -> h ∈ live (log s) ->
  exists s' rest,
    step (Rerender p E) s = Some s' /\
    emitted s s' = HlsDestroy h :: rest /\
    (isSupported E = true ->
       hlsRef s' = Some (nextHls s) /\ nextHls s ≠ h /\
       exists c, HlsNew (nextHls s) c ∈ rest).
Proof.
  intros Hr Hm Hc Hin.
  pose proof (reachable_inv _ Hr) as Hi.
  pose proof (reachable_live_hlsRef _ _ Hr Hin) as Hh.
  assert (rebinds p s = true) as Hb.
  { unfold rebinds, deps1_changed. rewrite Hc. by destruct (effect1 s). }
  assert (step (Rerender p E) s = Some (rerender p E s)) as Hstep
    by (simpl; by rewrite bool_decide_eq_true_2).
  destruct (trigger_log (Rerender p E) s _ h Hi Hh Hb Hstep) as (rest & Hl & _).
  exists (rerender p E s), rest. split; [exact Hstep|].
  split; [by apply emitted_app|].
  intros HE.
  pose proof (reachable_inv _ (reachable_step _ _ _ Hr Hstep)) as Hi'.
  pose proof (reachable_shape _ Hr) as [Hvid _ Hreg _ _].
  destruct (Hvid Hm) as [v Hv].
  destruct (run_cleanup_frame s) as (Hv0 & Hh0 & Hn0 & _).
  assert (registered (run_cleanup s)) as Hreg0
    by (unfold registered; by rewrite Hh0, Hn0).
  rewrite <- Hv0 in Hv.
  destruct (bind_state p E (run_cleanup s) v
              (bool_decide (effect2 s ≠ Some (videoRef s, playerRef p))) Hv HE Hreg0)
    as (Hh' & _).
  rewrite Hn0 in Hh'.
  assert (hlsRef (rerender p E s) = Some (nextHls s)) as Hnew.
  { unfold rerender, seq. rewrite Hb. exact Hh'. }
  destruct (core_fresh _ (inv_core _ Hi) h Hh) as [Hlt _].
  split; [exact Hnew|]. split; [lia|].
  assert (log (rerender p E s) = log (initHls p E (run_cleanup s))) as Hlog.
  { unfold rerender, seq. rewrite Hb. simpl. case_bool_decide; [|done].
    by destruct (updateVideoRef_frame p
                   (set_effect1 (Some p) (initHls p E (run_cleanup s))))
      as (_ & _ & _ & _ & -> & _). }
  rewrite (log_initHls_software _ _ _ _ Hv HE), Hn0 in Hlog.
  assert (log (run_cleanup s) = log s ++ [HlsDestroy h]) as Hlog0.
  { unfold run_cleanup. destruct (effect1 s) as [old|] eqn:He1.
    - by rewrite log_cleanup, Hh.
    - pose proof (inv_effect1 _ Hi He1). congruence. }
  rewrite Hlog0, Hl, <- app_assoc in Hlog.
  apply app_inv_head in Hlog. injection Hlog as ->.
  eexists. apply list_elem_of_here.
Qed.

Lemma mounted_bare_reachable : reachable mounted_bare.
Proof.
  apply (reachable_step (Mount bare_props 7 mse) (initial ∅));
    [apply reachable_initial | reflexivity].
Qed.

Lemma omitted_hlsConfig_rebinds_witness :
  exists rest,
    emitted mounted_bare (rerender bare_props mse mounted_bare) = HlsDestroy 0 :: rest /\
    hlsRef (rerender bare_props mse mounted_bare) = Some 1.
Proof.
  destruct (omitted_hlsConfig_rebinds mounted_bare bare_props mse 0 mounted_bare_reachable)
    as (s' & rest & Hs & He & Hnew).
  - reflexivity.
  - reflexivity.
  - vm_compute. apply list_elem_of_here.
  - injection Hs as <-. exists rest. split; [exact He|].
    destruct (Hnew eq_refl) as (H1 & _). exact H1.
Defined.

(** X4. A re-render whose dependencies are the ones of the last bind (same
    source, flag, callbacks and ref, and the same configuration object)
    does not reach the engine: nothing is logged, the stored instance, the
    allocator and the listeners are as before, and the cleanup React holds
    is still the one of the last bind.  The pass-through attributes are no
    dependency: changing them alone is such a re-render. *)
Theorem same_deps_keep_engine s old p E c :
  effect1 s = Some old -> hlsConfig p = Some c -> deps1 old = deps1 p ->
  emitted s (rerender p E s) = [] /\
  hlsRef (rerender p E s) = hlsRef s /\
  nextHls (rerender p E s) = nextHls s /\
  handlers (rerender p E s) = handlers s /\
  effect1 (rerender p E s) = Some old.
Proof.
  intros He Hc Hd.
  assert (rebinds p s = false) as Hb.
  { unfold rebinds, deps1_changed. rewrite He, Hc. by apply bool_decide_eq_false_2; auto. }
  pose proof (rerender_shape p E s) as (_ & _ & Hs). rewrite Hb in Hs.
  destruct Hs as [He' Hh'].
  assert (log (rerender p E s) = log s /\ nextHls (rerender p E s) = nextHls s /\
          handlers (rerender p E s) = handlers s) as (Hl & Hn & Hhd).
  { unfold rerender, seq. rewrite Hb. simpl. unfold skip. case_bool_decide; [|done].
    by destruct (updateVideoRef_frame p s) as (_ & _ & -> & -> & -> & _). }
  split; [apply emitted_app; by rewrite Hl, app_nil_r|].
  split; [exact Hh'|]. split; [exact Hn|]. split; [exact Hhd|]. by rewrite He'.
Qed.

Lemma same_deps_keep_engine_witness :
  emitted mounted_sample
    (rerender (with_props {[ "muted" := JBool true ]} sample_props) mse mounted_sample) = [] /\
  hlsRef (rerender (with_props {[ "muted" := JBool true ]} sample_props) mse mounted_sample)
  = Some 0.
Proof.
  destruct (same_deps_keep_engine mounted_sample sample_props
              (with_props {[ "muted" := JBool true ]} sample_props) mse (0, ∅))
    as (H1 & H2 & _).
  - reflexivity.
  - reflexivity.
  - vm_compute. reflexivity.
  - split; [exact H1 | exact H2].
Defined.

(** ** The other listeners *)

Lemma log_handle_manifest p h data play s :
  microtasks s = [] ->
  log (handle p h (EvManifestParsed data) play s) =
    log s ++
    (if truthy_flag (autoPlay p)
     then match videoRef s with Some v => [VideoPlay v] | None => [] end
     else []) ++
    calls (onHlsManifestParsed p) (fun f => CallOnHlsManifestParsed f data) ++
    (if truthy_flag (autoPlay p)
     then match videoRef s, play with
          | Some _, Rejected reason => [ConsoleError "Autoplay failed:" (Some reason)]
          | _, _ => []
          end
     else []).
Proof.
  intros Hm. unfold handle, listen, onManifestParsed, seq, drain. simpl.
  destruct (truthy_flag (autoPlay p)); [destruct (videoRef s); [destruct play|]|];
    destruct (onHlsManifestParsed p); simpl; unfold skip; rewrite ?Hm; simpl;
    by rewrite <- ?app_assoc, ?app_nil_r.
Qed.

(** X5. What the manifest listener adds to the log, in every case: the
    play command, only when [autoPlay] is truthy and an element is attached;
    then the call of [onHlsManifestParsed] with the payload, when supplied;
    then the [console.error], only when that play was rejected.  So without
    [autoPlay] the element is never played, and a play that succeeds logs
    no error.  The stored instance and the published object are untouched. *)
Theorem manifest_listener s h p data play :
  reachable s -> listener h MANIFEST_PARSED s = Some p ->
  exists s',
    step (Emit h (EvManifestParsed data) play) s = Some s' /\
    emitted s s' =
      (if truthy_flag (autoPlay p)
       then match videoRef s with Some v => [VideoPlay v] | None => [] end
       else []) ++
      calls (onHlsManifestParsed p) (fun f => CallOnHlsManifestParsed f data) ++
      (if truthy_flag (autoPlay p)
       then match videoRef s, play with
            | Some _, Rejected reason => [ConsoleError "Autoplay failed:" (Some reason)]
            | _, _ => []
            end
       else []) /\
    (truthy_flag (autoPlay p) = false -> forall v, VideoPlay v ∉ emitted s s') /\
    (play = Fulfilled -> forall m r, ConsoleError m r ∉ emitted s s') /\
    hlsRef s' = hlsRef s /\
    internalPlayerRef s' = internalPlayerRef s /\ refs s' = refs s.
Proof.
  intros Hr Hl.
  pose proof (inv_micro _ (reachable_inv _ Hr)) as Hm.
  exists (handle p h (EvManifestParsed data) play s).
  split; [simpl; by rewrite Hl|].
  pose proof (emitted_app _ _ _ (log_handle_manifest p h data play s Hm)) as He.
  split; [exact He|]. rewrite He.
  destruct (handle_frame p h (EvManifestParsed data) play s) as (_ & Hi & Hrf & _).
  split; [|split; [|split; [|split; [exact Hi | exact Hrf]]]].
  - intros -> v Hin. destruct (onHlsManifestParsed p); simpl in Hin;
      repeat (apply elem_of_cons in Hin as [Hin | Hin]; [discriminate|]);
      by apply elem_of_nil in Hin.
  - intros -> m r Hin.
    destruct (truthy_flag (autoPlay p)), (videoRef s), (onHlsManifestParsed p);
      simpl in Hin;
      repeat (apply elem_of_cons in Hin as [Hin | Hin]; [discriminate|]);
      by apply elem_of_nil in Hin.
  - unfold handle, listen, onManifestParsed. frame.
Qed.

Lemma manifest_listener_witness :
  emitted mounted_sample
    (handle sample_props 0 (EvManifestParsed 11) Fulfilled mounted_sample)
  = [VideoPlay 7; CallOnHlsManifestParsed 5 11].
Proof.
  destruct (manifest_listener mounted_sample 0 sample_props 11 Fulfilled
              mounted_sample_reachable)
    as (s' & Hs & He & _).
  - reflexivity.
  - injection Hs as <-. exact He.
Defined.

(** X6. The media-attached and level-switched listeners only forward: the
    step adds to the log the call of [onHlsMediaAttached] without argument,
    respectively of [onHlsLevelSwitched] with the level of the event, when
    the caller supplied the callback, and nothing when not; the stored
    instance is kept. *)
Theorem forwarding_listeners s h p level play :
  reachable s ->
  (listener h MEDIA_ATTACHED s = Some p ->
   exists s', step (Emit h EvMediaAttached play) s = Some s' /\
              emitted s s' = calls (onHlsMediaAttached p) CallOnHlsMediaAttached /\
              hlsRef s' = hlsRef s) /\
  (listener h LEVEL_SWITCHED s = Some p ->
   exists s', step (Emit h (EvLevelSwitched level) play) s = Some s' /\
              emitted s s' =
                calls (onHlsLevelSwitched p) (fun f => CallOnHlsLevelSwitched f level) /\
              hlsRef s' = hlsRef s).
Proof.
  intros Hr. pose proof (inv_micro _ (reachable_inv _ Hr)) as Hm.
  split; intros Hl; eexists; (split; [simpl; by rewrite Hl|]); split.
  - apply emitted_app. unfold handle, listen, onMediaAttached, seq, drain. simpl.
    destruct (call_frame (onHlsMediaAttached p) CallOnHlsMediaAttached s)
      as (_ & _ & _ & _ & _ & -> & _).
    by rewrite Hm, app_nil_r, log_call.
  - unfold handle, listen, onMediaAttached. frame.
  - apply emitted_app. unfold handle, listen, onLevelSwitched, seq, drain. simpl.
    destruct (call_frame (onHlsLevelSwitched p) (fun f => CallOnHlsLevelSwitched f level) s)
      as (_ & _ & _ & _ & _ & -> & _).
    by rewrite Hm, app_nil_r, log_call.
  - unfold handle, listen, onLevelSwitched. frame.
Qed.

Lemma forwarding_listeners_witness :
  emitted mounted_sample (handle sample_props 0 (EvLevelSwitched 2) Fulfilled mounted_sample)
  = [CallOnHlsLevelSwitched 6 2].
Proof.
  destruct (forwarding_listeners mounted_sample 0 sample_props 2 Fulfilled
              mounted_sample_reachable) as (_ & H).
  destruct (H eq_refl) as (s' & Hs & He & _).
  injection Hs as <-. exact He.
Defined.

(** X7. An error that is not fatal, and a fatal network or media error,
    leave the instance alive: after the listener has run the instance is
    still the one in [hlsRef] and the only live one, and the step logged no
    destruction. *)
Theorem recoverable_error_keeps_instance s h p event data play :
  reachable s -> h ∈ live (log s) -> listener h ERROR s = Some p ->
  fatal data = false \/ type data = NETWORK_ERROR \/ type data = MEDIA_ERROR ->
  exists s',
    step (Emit h (EvError event data) play) s = Some s' /\
    hlsRef s' = Some h /\
    live (log s') = [h] /\
    forall h', HlsDestroy h' ∉ emitted s s'.
Proof.
  intros Hr Hin Hl Hcase.
  pose proof (reachable_live_hlsRef _ _ Hr Hin) as Hh.
  pose proof (inv_micro _ (reachable_inv _ Hr)) as Hm.
  assert (step (Emit h (EvError event data) play) s
          = Some (handle p h (EvError event data) play s)) as Hstep
    by (simpl; by rewrite Hl).
  exists (handle p h (EvError event data) play s).
  split; [exact Hstep|].
  assert (hlsRef (handle p h (EvError event data) play s) = Some h) as Hh'.
  { rewrite <- Hh. unfold handle, listen, onError.
    destruct Hcase as [-> | [-> | ->]]; frame. }
  split; [exact Hh'|].
  split; [rewrite (reachable_live _ (reachable_step _ _ _ Hr Hstep)); by rewrite Hh'|].
  intros h'. rewrite (emitted_app _ _ _ (log_handle_error _ _ _ _ play _ Hm Hh)).
  unfold recovery_policy.
  destruct Hcase as [Hc | [Hc | Hc]]; rewrite Hc;
    destruct (onHlsError p); try destruct (fatal data); intros Hd;
    simpl in Hd;
    repeat (apply elem_of_cons in Hd as [Hd | Hd]; [discriminate|]);
    by apply elem_of_nil in Hd.
Qed.

Lemma recoverable_error_keeps_instance_witness :
  hlsRef (handle sample_props 0 (EvError "hlsError" network_failure) Fulfilled mounted_sample)
  = Some 0 /\
  hlsRef (handle sample_props 0 (EvError "hlsError" stall) Fulfilled mounted_sample)
  = Some 0.
Proof.
  split.
  - destruct (recoverable_error_keeps_instance mounted_sample 0 sample_props "hlsError"
                network_failure Fulfilled mounted_sample_reachable)
      as (s' & Hs & Hh & _).
    + vm_compute. apply list_elem_of_here.
    + reflexivity.
    + right. left. reflexivity.
    + injection Hs as <-. exact Hh.
  - destruct (recoverable_error_keeps_instance mounted_sample 0 sample_props "hlsError"
                stall Fulfilled mounted_sample_reachable)
      as (s' & Hs & Hh & _).
    + vm_compute. apply list_elem_of_here.
    + reflexivity.
    + left. reflexivity.
    + injection Hs as <-. exact Hh.
Defined.

Lemma handle_constructs_nothing p h ev play s :
  microtasks s = [] ->
  forall h' c, HlsNew h' c ∉ emitted s (handle p h ev play s).
Proof.
  intros Hm h' c.
  destruct ev as [|data|event data|level].
  - unfold emitted, handle, listen, onMediaAttached, seq, drain. simpl.
    destruct (call_frame (onHlsMediaAttached p) CallOnHlsMediaAttached s)
      as (_ & _ & _ & _ & _ & -> & _).
    rewrite Hm, app_nil_r, log_call, drop_app_length. intros Hin.
    destruct (onHlsMediaAttached p); simpl in Hin;
      repeat (apply elem_of_cons in Hin as [Hin | Hin]; [discriminate|]);
      by apply elem_of_nil in Hin.
  - rewrite (emitted_app _ _ _ (log_handle_manifest p h data play s Hm)). intros Hin.
    destruct (truthy_flag (autoPlay p)), (videoRef s), play, (onHlsManifestParsed p);
      simpl in Hin;
      repeat (apply elem_of_cons in Hin as [Hin | Hin]; [discriminate|]);
      by apply elem_of_nil in Hin.
  - unfold emitted, handle, listen, seq, drain. simpl.
    destruct (static_onError p h event data s) as (_ & _ & ->).
    rewrite Hm, app_nil_r, log_onError, drop_app_length. intros Hin.
    destruct (fatal data), (type data), (hlsRef s), (onHlsError p); simpl in Hin;
      repeat (apply elem_of_cons in Hin as [Hin | Hin]; [discriminate|]);
      by apply elem_of_nil in Hin.
  - unfold emitted, handle, listen, onLevelSwitched, seq, drain. simpl.
    destruct (call_frame (onHlsLevelSwitched p) (fun f => CallOnHlsLevelSwitched f level) s)
      as (_ & _ & _ & _ & _ & -> & _).
    rewrite Hm, app_nil_r, log_call, drop_app_length. intros Hin.
    destruct (onHlsLevelSwitched p); simpl in Hin;
      repeat (apply elem_of_cons in Hin as [Hin | Hin]; [discriminate|]);
      by apply elem_of_nil in Hin.
Qed.

(** X8. No event of the engine makes the component construct an instance
    or write to the published object: whatever the event, the step logs no
    [new Hls], allocates nothing, registers no listener, leaves the caller's
    [playerRef] objects, the internal one and the element ref as they were,
    and either keeps the stored instance or clears it. *)
Theorem events_construct_nothing s s' h ev play :
  reachable s -> step (Emit h ev play) s = Some s' ->
  (forall h' c, HlsNew h' c ∉ emitted s s') /\
  nextHls s' = nextHls s /\
  handlers s' = handlers s /\
  refs s' = refs s /\
  internalPlayerRef s' = internalPlayerRef s /\
  videoRef s' = videoRef s /\
  (hlsRef s' = hlsRef s \/ hlsRef s' = None).
Proof.
  intros Hr. simpl. destruct (listener h (kind ev) s) as [p|]; [|done].
  intros [= <-].
  pose proof (inv_micro _ (reachable_inv _ Hr)) as Hm.
  destruct (handle_frame p h ev play s) as (Hv & Hi & Hrf & Hhd & Hn & _).
  split; [by apply handle_constructs_nothing|].
  repeat (split; [done|]). apply handle_hlsRef.
Qed.

Lemma events_construct_nothing_witness :
  nextHls (handle sample_props 0 (EvError "hlsError" key_failure) Fulfilled mounted_sample)
  = nextHls mounted_sample.
Proof.
  destruct (events_construct_nothing mounted_sample
              (handle sample_props 0 (EvError "hlsError" key_failure) Fulfilled mounted_sample)
              0 (EvError "hlsError" key_failure) Fulfilled mounted_sample_reachable)
    as (_ & H & _).
  - vm_compute. reflexivity.
  - exact H.
Defined.

(** ** Destructions over a whole session *)

Lemma log_run_cleanup s :
  log (run_cleanup s) =
    log s ++ match effect1 s, hlsRef s with
             | Some _, Some h => [HlsDestroy h]
             | _, _ => []
             end.
Proof.
  unfold run_cleanup. destruct (effect1 s) as [old|].
  - rewrite log_cleanup. by destruct (hlsRef s).
  - by rewrite app_nil_r.
Qed.

(** Every step adds to the log at most one destruction, of the stored
    instance, before anything else it adds. *)
Lemma step_emits a s s' :
  Inv s -> step a s = Some s' ->
  exists d x, log s' = log s ++ d ++ x /\ Forall constructive x /\
              (d = [] \/ exists h, hlsRef s = Some h /\ d = [HlsDestroy h]).
Proof.
  intros Hi. pose proof (inv_micro _ Hi) as Hm.
  assert (forall t, exists d,
            log (run_cleanup t) = log t ++ d /\
            (d = [] \/ exists h, hlsRef t = Some h /\ d = [HlsDestroy h])) as Hclean.
  { intros t. eexists. split; [apply log_run_cleanup|].
    destruct (effect1 t) as [old|]; [|by left]. destruct (hlsRef t) as [h0|]; [|by left].
    right. by exists h0. }
  destruct a as [p v E|p E| |h ev play]; simpl.
  - case_bool_decide; [|done]. intros [= <-].
    destruct (initHls_constructive p E (set_videoRef (Some v) (set_phase Mounted s)))
      as (x & Hx & Fx).
    exists [], x. split; [|split; [exact Fx | by left]].
    unfold mount, seq. simpl.
    by destruct (updateVideoRef_frame p (set_effect1 (Some p)
          (initHls p E (set_videoRef (Some v) (set_phase Mounted s)))))
      as (_ & _ & _ & _ & -> & _).
  - case_bool_decide; [|done]. intros [= <-].
    assert (forall t, log ((if bool_decide (effect2 s ≠ Some (videoRef s, playerRef p))
                            then updateVideoRef p else skip) t) = log t) as H2.
    { intros t. case_bool_decide; [|done].
      by destruct (updateVideoRef_frame p t) as (_ & _ & _ & _ & -> & _). }
    unfold rerender, seq. simpl. rewrite H2. destruct (rebinds p s).
    + unfold seq. simpl.
      destruct (initHls_constructive p E (run_cleanup s)) as (x & -> & Fx).
      destruct (Hclean s) as (d & -> & Hd).
      exists d, x. by rewrite <- app_assoc.
    + exists [], []. split; [by rewrite app_nil_r | split; [constructor | by left]].
  - case_bool_decide; [|done]. intros [= <-].
    destruct (Hclean (set_videoRef None (set_phase Unmounted s))) as (d & Hl & Hd).
    exists d, []. split; [|split; [constructor | exact Hd]].
    unfold unmount, seq. simpl. rewrite Hl. by rewrite app_nil_r.
  - destruct (listener h (kind ev) s) as [p|]; [|done]. intros [= <-].
    destruct ev as [|data|event data|level].
    + exists [], (calls (onHlsMediaAttached p) CallOnHlsMediaAttached).
      split; [|split; [apply calls_constructive; by intros ? ? | by left]].
      unfold handle, listen, onMediaAttached, seq, drain. simpl.
      destruct (call_frame (onHlsMediaAttached p) CallOnHlsMediaAttached s)
        as (_ & _ & _ & _ & _ & -> & _).
      by rewrite Hm, app_nil_r, log_call.
    + eexists [], _. split; [apply (log_handle_manifest p h data play s Hm)|].
      split; [|by left].
      destruct (truthy_flag (autoPlay p)), (videoRef s), play, (onHlsManifestParsed p);
        simpl; constructive_list.
    + assert (log (handle p h (EvError event data) play s)
              = log (onError p h event data s)) as ->.
      { unfold handle, listen, seq, drain. simpl.
        destruct (static_onError p h event data s) as (_ & _ & ->).
        by rewrite Hm, app_nil_r. }
      rewrite log_onError.
      destruct (fatal data); [destruct (type data)|].
      1, 2: eexists [], _; split; [reflexivity|]; split; [|by left];
        destruct (onHlsError p); simpl; constructive_list.
      4: eexists [], _; split; [reflexivity|]; split; [|by left];
        destruct (onHlsError p); simpl; constructive_list.
      all: destruct (hlsRef s) as [h'|] eqn:Hh;
        [ exists [HlsDestroy h'], (calls (onHlsError p) (fun f => CallOnHlsError f event data));
          split; [reflexivity|]; split; [|right; by exists h']
        | exists [], (calls (onHlsError p) (fun f => CallOnHlsError f event data));
          split; [reflexivity|]; split; [|by left] ];
        apply calls_constructive; by intros ? ?.
    + exists [], (calls (onHlsLevelSwitched p) (fun f => CallOnHlsLevelSwitched f level)).
      split; [|split; [apply calls_constructive; by intros ? ? | by left]].
      unfold handle, listen, onLevelSwitched, seq, drain. simpl.
      destruct (call_frame (onHlsLevelSwitched p)
                  (fun f => CallOnHlsLevelSwitched f level) s)
        as (_ & _ & _ & _ & _ & -> & _).
      by rewrite Hm, app_nil_r, log_call.
Qed.

(** What the monitor has accepted: the instance it holds, and every
    instance destroyed so far, was constructed. *)
Lemma monitor_constructed tr o :
  monitor tr = Some o ->
  (forall h, o = Some h -> exists c, HlsNew h c ∈ tr) /\
  (forall h, HlsDestroy h ∈ tr -> exists c, HlsNew h c ∈ tr).
Proof.
  revert o. induction tr as [|e tr IH] using rev_ind; intros o Hm.
  - injection Hm as <-. split; [done|]. intros h Hin. by apply elem_of_nil in Hin.
  - rewrite monitor_snoc in Hm.
    destruct (monitor tr) as [cur|]; [|done].
    destruct (IH cur eq_refl) as [IH1 IH2].
    assert (forall h, (exists c, HlsNew h c ∈ tr) -> exists c, HlsNew h c ∈ tr ++ [e]) as Hup.
    { intros h [c Hc]. exists c. apply elem_of_app. by left. }
    assert (forall h, HlsDestroy h ∈ tr ++ [e] ->
              HlsDestroy h ∈ tr \/ e = HlsDestroy h) as Hsplit.
    { intros h [Hin | Hin]%elem_of_app; [by left|].
      apply elem_of_cons in Hin as [<- | Hin]; [by right | by apply elem_of_nil in Hin]. }
    destruct e; simpl in Hm;
      try (injection Hm as <-; split;
           [ intros h' Hh'; by apply Hup, IH1
           | intros h' [Hin | [=]]%Hsplit; by apply Hup, IH2 ]).
    + destruct cur; [done|]. injection Hm as <-. split.
      * intros h' [= <-]. eexists. apply elem_of_app. right. apply list_elem_of_here.
      * intros h' [Hin | [=]]%Hsplit. by apply Hup, IH2.
    + case_bool_decide as Hc; [|done]. injection Hm as <-. split; [done|].
      intros h' [Hin | [= <-]]%Hsplit; [by apply Hup, IH2 | by apply Hup, IH1].
Qed.

(** X9. Over a whole session no instance is destroyed twice, and an
    instance that has been destroyed had been constructed, is no longer the
    stored one and is not live. *)
Theorem destroyed_once s :
  reachable s ->
  forall h,
    count_occ effect_eq_dec (log s) (HlsDestroy h) <= 1 /\
    (HlsDestroy h ∈ log s ->
       (exists c, HlsNew h c ∈ log s) /\ hlsRef s ≠ Some h /\ h ∉ live (log s)).
Proof.
  intros Hr h. split.
  - induction Hr as [r | a s s' Hr IH Hstep]; [simpl; lia|].
    pose proof (reachable_inv _ Hr) as Hi.
    destruct (step_emits a s s' Hi Hstep) as (d & x & -> & Fx & Hd).
    rewrite !count_occ_app.
    assert (count_occ effect_eq_dec x (HlsDestroy h) = 0) as ->.
    { apply count_occ_not_In. intros Hin%list_elem_of_In.
      rewrite Forall_forall in Fx. by apply (Fx _ Hin h). }
    destruct Hd as [-> | (h0 & Hh0 & ->)]; [simpl; lia|].
    destruct (decide (h0 = h)) as [-> | Hne].
    + destruct (core_fresh _ (inv_core _ Hi) h Hh0) as [_ Hnin].
      assert (count_occ effect_eq_dec (log s) (HlsDestroy h) = 0) as ->
        by (apply count_occ_not_In; by intros Hin%list_elem_of_In).
      pose proof (count_occ_bound effect_eq_dec (HlsDestroy h) [HlsDestroy h]) as Hb.
      simpl in Hb. simpl. lia.
    + assert (count_occ effect_eq_dec [HlsDestroy h0] (HlsDestroy h) = 0) as ->.
      { apply count_occ_not_In. intros [[=] | []]. done. }
      lia.
  - intros Hin. pose proof (reachable_inv _ Hr) as Hi.
    destruct (monitor_constructed _ _ (core_monitor _ (inv_core _ Hi))) as [_ H2].
    split; [by apply H2|].
    assert (hlsRef s ≠ Some h) as Hne.
    { intros Hh. by destruct (core_fresh _ (inv_core _ Hi) h Hh) as [_ Hnin]. }
    split; [exact Hne|]. intros Hl. by apply Hne, reachable_live_hlsRef.
Qed.

Lemma destroyed_once_witness :
  count_occ effect_eq_dec
    (log (rerender (with_src "b.m3u8" sample_props) mse mounted_sample)) (HlsDestroy 0) <= 1.
Proof.
  refine (proj1 (destroyed_once _ _ 0)).
  apply (reachable_step (Rerender (with_src "b.m3u8" sample_props) mse) mounted_sample);
    [apply mounted_sample_reachable | reflexivity].
Defined.

(** ** The object the component publishes to *)

Lemma untouched_refl ext s : untouched ext s s.
Proof. by destruct ext. Qed.

Lemma untouched_trans ext s1 s2 s3 :
  untouched ext s1 s2 -> untouched ext s2 s3 -> untouched ext s1 s3.
Proof. destruct ext; simpl; congruence. Qed.

Lemma initHls_untouched ext p E s :
  target_ok ext p -> untouched ext s (initHls p E s).
Proof. intros H. unfold initHls. target H. Qed.

Lemma cleanup_untouched ext p s :
  target_ok ext p -> untouched ext s (cleanup p s).
Proof. intros H. target H. Qed.

Lemma updateVideoRef_untouched ext p s :
  target_ok ext p -> untouched ext s (updateVideoRef p s).
Proof. intros H. target H. Qed.

Lemma unmount_refs_effect1 s : effect1 (unmount s) = None.
Proof. reflexivity. Qed.

Lemma step_untouched ext a s s' :
  (forall old, effect1 s = Some old -> target_ok ext old) ->
  selects ext a = true -> step a s = Some s' ->
  untouched ext s s' /\ (forall old, effect1 s' = Some old -> target_ok ext old).
Proof.
  intros Hold Hsel.
  assert (forall t, effect1 t = effect1 s -> untouched ext t (run_cleanup t)) as Hclean.
  { intros t Ht. unfold run_cleanup. rewrite Ht.
    destruct (effect1 s) as [old|] eqn:He; [|apply untouched_refl].
    by apply cleanup_untouched, Hold. }
  destruct a as [p v E|p E| |h ev play]; simpl.
  - case_bool_decide; [|done]. intros [= <-].
    assert (target_ok ext p) as Hp
      by (destruct ext; simpl in *; by apply bool_decide_eq_true in Hsel).
    split; [|rewrite mount_effect1; by intros old [= <-]].
    unfold mount, seq.
    eapply untouched_trans; [|apply untouched_refl].
    eapply untouched_trans; [|by apply updateVideoRef_untouched].
    eapply untouched_trans; [|apply untouched_refl].
    eapply untouched_trans; [|by apply initHls_untouched].
    by destruct ext.
  - case_bool_decide; [|done]. intros [= <-].
    assert (target_ok ext p) as Hp
      by (destruct ext; simpl in *; by apply bool_decide_eq_true in Hsel).
    destruct (rerender_shape p E s) as (_ & _ & He).
    split.
    + unfold rerender, seq.
      set (A := (if rebinds p s then _ else skip) s).
      assert (untouched ext s A) as HA.
      { subst A. destruct (rebinds p s); [|apply untouched_refl].
        apply (untouched_trans ext s (run_cleanup s)); [by apply Hclean|].
        apply (untouched_trans ext _ (initHls p E (run_cleanup s)));
          [by apply initHls_untouched | by destruct ext]. }
      apply (untouched_trans ext s A _ HA).
      case_bool_decide.
      * apply (untouched_trans ext A (updateVideoRef p A));
          [by apply updateVideoRef_untouched | by destruct ext].
      * by destruct ext.
    + destruct (rebinds p s).
      * rewrite He. by intros old [= <-].
      * destruct He as [-> _]. exact Hold.
  - case_bool_decide; [|done]. intros [= <-].
    split; [|intros old; by rewrite unmount_refs_effect1].
    unfold unmount, seq.
    eapply untouched_trans; [|apply untouched_refl].
    eapply untouched_trans; [|by apply Hclean].
    by destruct ext.
  - destruct (listener h (kind ev) s) as [p|]; [|done]. intros [= <-].
    destruct (handle_frame p h ev play s) as (_ & Hi & Hr & _ & _ & _ & He & _).
    split; [by destruct ext|]. by rewrite He.
Qed.

Lemma run_untouched ext acts s s' :
  (forall old, effect1 s = Some old -> target_ok ext old) ->
  forallb (selects ext) acts = true -> run acts s = Some s' ->
  untouched ext s s'.
Proof.
  revert s. induction acts as [|a acts IH]; intros s Hold Hall Hrun; simpl in *.
  - injection Hrun as <-. apply untouched_refl.
  - apply andb_prop in Hall as [Ha Hall].
    destruct (step a s) as [s1|] eqn:Hstep; [|done].
    destruct (step_untouched ext a s s1 Hold Ha Hstep) as [H1 Hold1].
    apply (untouched_trans ext s s1 s' H1). by apply IH.
Qed.

(** X10. The component writes to one object only.  Over a whole session,
    if the caller passes a [playerRef] at every render the internal ref keeps
    its initial [{ video: null, hls: null }], and if the caller never passes
    one the caller's ref objects are never written. *)
Theorem one_published_object acts r s :
  run acts (initial r) = Some s ->
  (forallb passes_playerRef acts = true -> internalPlayerRef s = absent) /\
  (forallb omits_playerRef acts = true -> refs s = r).
Proof.
  intros Hrun. split; intros Hall.
  - by apply (run_untouched true acts (initial r) s).
  - by apply (run_untouched false acts (initial r) s).
Qed.

Lemma one_published_object_witness :
  refs (handle sample_props 0 (EvError "hlsError" key_failure) Fulfilled
          (unmount mounted_sample)) = ∅.
Proof.
  refine (proj2 (one_published_object
                   [Mount sample_props 7 mse; Unmount;
                    Emit 0 (EvError "hlsError" key_failure) Fulfilled]
                   ∅ _ _) _).
  - vm_compute. reflexivity.
  - reflexivity.
Defined.

(** ** Unmounting *)

(** X11. A mounted component can always be unmounted, and the unmount
    detaches the element, logs the destruction of the stored instance and
    nothing else (nothing at all when none is stored), clears [hlsRef], and
    leaves [{ video: null, hls: null }] in the object the last bind
    published to. *)
Theorem unmount_tears_down s :
  reachable s -> phase s = Mounted ->
  exists s' old,
    step Unmount s = Some s' /\
    effect1 s = Some old /\
    emitted s s' = match hlsRef s with Some h => [HlsDestroy h] | None => [] end /\
    hlsRef s' = None /\ videoRef s' = None /\ phase s' = Unmounted /\
    read_playerRef old s' = absent.
Proof.
  intros Hr Hm.
  destruct (shape_bound _ (reachable_shape _ Hr) Hm) as [old He].
  destruct (unmount_refs s (reachable_inv _ Hr)) as (Hp & Hv & Hh & _).
  exists (unmount s), old.
  split; [simpl; by rewrite bool_decide_eq_true_2|].
  split; [exact He|].
  assert (unmount s = set_effect1 None
            (cleanup old (set_videoRef None (set_phase Unmounted s)))) as Heq.
  { unfold unmount, seq, run_cleanup. simpl. by rewrite He. }
  split; [apply emitted_app; rewrite Heq; simpl; by rewrite log_cleanup|].
  split; [exact Hh|]. split; [exact Hv|]. split; [exact Hp|].
  rewrite Heq. unfold cleanup, seq.
  apply (read_write_playerRef old absent).
Qed.

Lemma unmount_tears_down_witness :
  emitted mounted_sample (unmount mounted_sample) = [HlsDestroy 0] /\
  read_playerRef sample_props (unmount mounted_sample) = absent.
Proof.
  destruct (unmount_tears_down mounted_sample mounted_sample_reachable eq_refl)
    as (s' & old & Hs & Ho & He & _ & _ & _ & Hread).
  injection Hs as <-. injection Ho as <-.
  split; [exact He | exact Hread].
Defined.

(** X12. The cleanup of the first effect is idempotent: run a second time
    it finds no instance, destroys nothing, logs nothing and leaves the
    state as the first run left it. *)
Theorem cleanup_idempotent p s :
  cleanup p (cleanup p s) = cleanup p s /\
  emitted (cleanup p s) (cleanup p (cleanup p s)) = [].
Proof.
  assert (cleanup p (cleanup p s) = cleanup p s) as Heq.
  { unfold cleanup, seq.
    assert (hlsRef (write_playerRef p absent (destroyHls s)) = None) as Hh.
    { destruct (write_playerRef_frame p absent (destroyHls s)) as (-> & _).
      apply hlsRef_destroyHls. }
    unfold destroyHls at 1. rewrite Hh.
    unfold write_playerRef. destruct (playerRef p) as [ref|]; [|done].
    unfold set_refs. simpl. by rewrite insert_insert_eq. }
  split; [exact Heq|]. rewrite Heq. apply emitted_app. by rewrite app_nil_r.
Qed.

(** ** Later rebinds without Media Source Extensions *)

Lemma legacy_second_reachable : reachable legacy_second.
Proof.
  apply (reachable_step (Rerender (with_src "b.m3u8" sample_props) legacy)
           (mount sample_props 7 legacy (initial ∅))).
  - apply (reachable_step (Mount sample_props 7 legacy) (initial ∅));
      [apply reachable_initial | reflexivity].
  - vm_compute. reflexivity.
Qed.

(** X13. On a browser where [Hls.isSupported()] is false (the native
    branch of Safari included), a rebinding re-render for which React does
    not re-run the second effect (its dependencies, the element and the
    [playerRef], are those of the last render: any re-render after the first
    one with the same [playerRef]) leaves [{ video: null, hls: null }] in the
    published object: the cleanup emptied it, [initHls] does not write it in
    these branches, and nothing stores the element again. *)
Theorem later_rebind_without_engine s p E :
  reachable s -> phase s = Mounted -> rebinds p s = true ->
  isSupported E = false -> effect2 s = Some (videoRef s, playerRef p) ->
  exists s',
    step (Rerender p E) s = Some s' /\
    read_playerRef p s' = absent /\
    hlsRef s' = None /\
    is_Some (videoRef s').
Proof.
  intros Hr Hm Hb HE H2.
  pose proof (reachable_shape _ Hr) as [Hvid Hbound _ _ Hsame].
  pose proof (reachable_inv _ Hr) as Hi.
  destruct (Hbound Hm) as [old Hold].
  pose proof (Hsame old _ Hold H2) as Href. simpl in Href.
  exists (rerender p E s). split; [simpl; by rewrite bool_decide_eq_true_2|].
  assert (rerender p E s =
          set_effect2 (Some (videoRef s, playerRef p))
            (set_effect1 (Some p) (initHls p E (cleanup old s)))) as ->.
  { unfold rerender, seq, run_cleanup. rewrite Hb, Hold.
    rewrite bool_decide_eq_false_2 by (intros Hne; by apply Hne). done. }
  destruct (initHls_other_state p E (cleanup old s) (or_introl HE))
    as (Hh & _ & Hv & _ & Hint & Hrefs & _).
  destruct (cleanup_core old s (inv_core _ Hi)) as [_ Hnone].
  destruct (cleanup_frame old s) as (Hv0 & _).
  split; [|split].
  - unfold read_playerRef. simpl. rewrite Hint, Hrefs, Href.
    apply (read_write_playerRef old absent).
  - simpl. by rewrite Hh.
  - simpl. rewrite Hv, Hv0. by apply Hvid.
Qed.

Lemma later_rebind_without_engine_witness :
  read_playerRef (with_src "c.m3u8" sample_props)
    (rerender (with_src "c.m3u8" sample_props) legacy legacy_second) = absent.
Proof.
  destruct (later_rebind_without_engine legacy_second (with_src "c.m3u8" sample_props)
              legacy legacy_second_reachable)
    as (s' & Hs & Hread & _).
  - vm_compute. reflexivity.
  - vm_compute. reflexivity.
  - reflexivity.
  - vm_compute. reflexivity.
  - injection Hs as <-. exact Hread.
Defined.
